(** * gitbase: plan validation rules and the tree_entries table

    A shallow embedding of two source files of gitbase:

    - the analyzer's validation rules ([validateIsResolved],
      [validateOrderBy], [validateGroupBy], [validateSchemaSource],
      [validateProjectTuples]) with their helpers, and
    - the [tree_entries] virtual table ([TreeEntriesSchema], the scan entry
      point, the two per-repository iterators and [fileToRow]).

    Go interfaces of the host engine (sql.Node, sql.Expression, sql.Table) are
    type classes here: the rules only call their methods.  The object store
    of go-git is a record of pure functions, since a repository is read-only
    for the lifetime of a query. *)

From Stdlib Require Import ZArith List Bool Ascii Lia.
From stdpp Require Import base option list strings gmap.

Set Warnings "-register-all".

Open Scope string_scope.
Open Scope Z_scope.

(* ===================================================================== *)
(** * The engine's data: types, schemas, expressions, plan nodes          *)
(* ===================================================================== *)

Module sql.

(** [interface{}] values that occur in rows and selectors. *)
Inductive Value : Type :=
| VText (s : string)
| VInt (z : Z)
| VBool (b : bool)
| VNil.

(** [sql.Row] is a slice of values; [sql.NewRow] builds it from its
    arguments in order. *)
Definition Row : Type := list Value.

Definition NewRow (values : list Value) : Row := values.

Inductive Type_ : Type :=
| Text
| Int64
| Boolean
| Tuple (elems : list Type_).

Record Column : Type := mkColumn {
  Name : string;
  Type' : Type_;
  Nullable : bool;
  Source : string
}.

Definition Schema : Type := list Column.

(** Expressions of the engine.  [AggregationFn] stands for every value
    that implements the [sql.Aggregation] interface, [Alias] for
    [*expression.Alias]; the other constructors are expressions that are
    neither. *)
Inductive Expression : Type :=
| AggregationFn (fn : string) (Child : Expression)
| Alias (Child : Expression) (name : string)
| GetField (index : nat) (name : string)
| Literal (v : Value)
| TupleExpr (exprs : list Expression)
| OtherExpr (tag : string).

(** The type switch [case sql.Aggregation]. *)
Definition isAggregation (e : Expression) : bool :=
  match e with
  | AggregationFn _ _ => true
  | _ => false
  end.

Inductive SortOrder : Type := Ascending | Descending.

Record SortField : Type := mkSortField {
  Column_ : Expression;
  Order : SortOrder
}.

(** Plan nodes.  [OtherNode] stands for every node type the rules have no
    case for by its concrete type (tables among them: [sql.Table] is an
    interface, see [NodeMethods]). *)
Inductive Node : Type :=
| Sort (SortFields : list SortField) (Child : Node)
| GroupBy (Aggregate Grouping : list Expression) (Child : Node)
| Project (Projections : list Expression) (Child : Node)
| TableAlias (Child : Node) (name : string)
| OtherNode (id : string).

(** What a value implementing [sql.Table] answers to [Name()] and
    [Schema()]. *)
Record Table : Type := mkTable {
  tableName : string;
  tableSchema : Schema
}.

(** Methods of [sql.Expression] that the rules call: [String()] and
    [Type()]. *)
Class ExpressionMethods : Type := {
  ExprString : Expression -> string;
  ExprType : Expression -> Type_
}.

(** [sql.IsTuple] and [sql.NumColumns] of the engine. *)
Class TypeMethods : Type := {
  IsTuple : Type_ -> bool;
  NumColumns : Type_ -> Z
}.

(** Methods of [sql.Node] that the rules call: [Resolved()], and the type
    assertion [n.(sql.Table)], which gives the table's name and schema
    when the node implements the interface. *)
Class NodeMethods : Type := {
  Resolved : Node -> bool;
  asTable : Node -> option Table
}.

(** The query context only carries tracing spans. *)
Record Context : Type := mkContext {
  spans : list string
}.

End sql.

(* ===================================================================== *)
(** * The analyzer's validation rules                                     *)
(* ===================================================================== *)

Module analyzer.
Import sql.

Definition validateResolvedRule : string := "validate_resolved".
Definition validateOrderByRule : string := "validate_order_by".
Definition validateGroupByRule : string := "validate_group_by".
Definition validateSchemaSourceRule : string := "validate_schema_source".
Definition validateProjectTuplesRule : string := "validate_project_tuples".

(** The error kinds with the arguments given to [New]. The message of
    [ErrValidationResolved] prints its argument with [%T], the node's
    dynamic type. *)
Inductive Error : Type :=
| ErrValidationResolved (n : Node)
| ErrValidationOrderBy
| ErrValidationGroupBy (expr : string)
| ErrValidationSchemaSource (name source : string)
| ErrProjectTuple (field columns : Z).

(** A rule returns [None] for Go's [nil] error. *)
Record ValidationRule : Type := mkRule {
  ruleName : string;
  Apply : Context -> Node -> option Error
}.

Fixpoint stringContains (strs : list string) (target : string) : bool :=
  match strs with
  | [] => false
  | s :: rest => if String.eqb s target then true else stringContains rest target
  end.

Section Rules.
Context `{EM : ExpressionMethods} `{TM : TypeMethods} `{NM : NodeMethods}.

Definition validateIsResolved (ctx : Context) (n : Node) : option Error :=
  if negb (Resolved n) then Some (ErrValidationResolved n) else None.

(** The loop over [n.SortFields]. *)
Fixpoint orderByFields (fields : list SortField) : option Error :=
  match fields with
  | [] => None
  | field :: rest =>
      if isAggregation (Column_ field) then Some ErrValidationOrderBy
      else orderByFields rest
  end.

Definition validateOrderBy (ctx : Context) (n : Node) : option Error :=
  match n with
  | Sort SortFields _ => orderByFields SortFields
  | _ => None
  end.

Fixpoint isValidAgg (validAggs : list string) (expr : Expression) : bool :=
  match expr with
  | AggregationFn _ _ => true
  | Alias Child _ => isValidAgg validAggs Child
  | _ => stringContains validAggs (ExprString expr)
  end.

(** The loop over [n.Aggregate]. *)
Fixpoint groupByAggregates (validAggs : list string) (exprs : list Expression)
  : option Error :=
  match exprs with
  | [] => None
  | expr :: rest =>
      if negb (isAggregation expr) && negb (isValidAgg validAggs expr)
      then Some (ErrValidationGroupBy (ExprString expr))
      else groupByAggregates validAggs rest
  end.

Definition validateGroupBy (ctx : Context) (n : Node) : option Error :=
  match n with
  | GroupBy Aggregate Grouping _ =>
      if (Z.of_nat (length Grouping) =? 0)%Z then None
      else
        let validAggs := map ExprString Grouping in
        groupByAggregates validAggs Aggregate
  | _ => None
  end.

(** The loop over [t.Schema()]. *)
Fixpoint schemaColumns (name : string) (cols : Schema) : option Error :=
  match cols with
  | [] => None
  | col :: rest =>
      if negb (String.eqb (Source col) name)
      then Some (ErrValidationSchemaSource name (Source col))
      else schemaColumns name rest
  end.

Definition validateSchema (t : Table) : option Error :=
  let name := tableName t in
  schemaColumns name (tableSchema t).

Definition validateSchemaSource (ctx : Context) (n : Node) : option Error :=
  match n with
  | TableAlias Child _ =>
      match asTable Child with
      | Some child => validateSchema child
      | None => None
      end
  | _ =>
      match asTable n with
      | Some t => validateSchema t
      | None => None
      end
  end.

(** [for i, e := range exprs], started at index [i]. *)
Fixpoint projectTuples (i : Z) (exprs : list Expression) : option Error :=
  match exprs with
  | [] => None
  | e :: rest =>
      if IsTuple (ExprType e)
      then Some (ErrProjectTuple (i + 1) (NumColumns (ExprType e)))
      else projectTuples (i + 1) rest
  end.

Definition validateProjectTuples (ctx : Context) (n : Node) : option Error :=
  match n with
  | Project Projections _ => projectTuples 0 Projections
  | GroupBy Aggregate _ _ => projectTuples 0 Aggregate
  | _ => None
  end.

Definition DefaultValidationRules : list ValidationRule :=
  [ mkRule validateResolvedRule validateIsResolved;
    mkRule validateOrderByRule validateOrderBy;
    mkRule validateGroupByRule validateGroupBy;
    mkRule validateSchemaSourceRule validateSchemaSource;
    mkRule validateProjectTuplesRule validateProjectTuples ].

End Rules.

End analyzer.

(* ===================================================================== *)
(** * Go's standard library: errors and strconv.FormatInt                 *)
(* ===================================================================== *)

Module golang.

(** Error values the iterators compare against or pass on.  [EOF] is
    [io.EOF]; [ErrObjectNotFound] is [plumbing.ErrObjectNotFound];
    [ErrOther] is any other error value (I/O, corruption). *)
Inductive error : Type :=
| EOF
| ErrObjectNotFound
| ErrOther (msg : string).

(** A Go pair [(v, err)] with exactly one side set. *)
Inductive result (A : Type) : Type :=
| Ok (v : A)
| Err (e : error).

Arguments Ok {A} v.
Arguments Err {A} e.

(** How a call ends: it returns, or it panics (nil dereference, index out
    of range), or the bounded loop of the model ran out of iterations. *)
Inductive exec (A : Type) : Type :=
| Returns (a : A)
| Panics
| OutOfFuel.

Arguments Returns {A} a.
Arguments Panics {A}.
Arguments OutOfFuel {A}.

(** One pass through the body of a [for] loop without condition: the
    body reaches [continue] (or its end) with a new state, returns, or
    panics. *)
Inductive iteration (S R : Type) : Type :=
| Continue (s : S)
| Return (r : R)
| Panic.

Arguments Continue {S R} s.
Arguments Return {S R} r.
Arguments Panic {S R}.

(** [for { body }], run for at most [fuel] passes. *)
Fixpoint iterate {S R : Type} (body : S -> iteration S R) (fuel : nat) (s : S) : exec R :=
  match fuel with
  | O => OutOfFuel
  | S fuel' =>
      match body s with
      | Continue s' => iterate body fuel' s'
      | Return r => Returns r
      | Panic => Panics
      end
  end.

(** [int64(x)]: conversion to a signed 64-bit integer, by wrap-around. *)
Definition int64 (x : Z) : Z :=
  (x + 2 ^ 63) mod 2 ^ 64 - 2 ^ 63.

(** The digit characters of strconv: [0-9a-z]. *)
Definition digit (d : Z) : ascii :=
  if d <? 10 then ascii_of_N (Z.to_N (48 + d)) else ascii_of_N (Z.to_N (87 + d)).

(** The digit loop of strconv's formatBits, most significant digit first;
    64 rounds are enough for any 64-bit value in any base from 2. For a
    base that is a power of two Go masks and shifts instead of dividing,
    which gives the same digits. *)
Fixpoint formatBits (rounds : nat) (u base : Z) (acc : string) : string :=
  match rounds with
  | O => acc
  | S rounds' =>
      if u <? base then String (digit u) acc
      else formatBits rounds' (u / base) base (String (digit (u mod base)) acc)
  end.

(** [strconv.FormatInt(i, base)] for [2 <= base <= 36]. *)
Definition FormatInt (i : Z) (base : Z) : string :=
  if i <? 0 then String "-"%char (formatBits 64 (- i) base EmptyString)
  else formatBits 64 i base EmptyString.

End golang.

(* ===================================================================== *)
(** * go-git: hashes, files, trees, the object store of a repository      *)
(* ===================================================================== *)

Module plumbing.

(** A 20-byte object id. *)
Record Hash : Type := mkHash {
  hashBytes : list Z
}.

(** [plumbing.NewHash] (from hexadecimal text) and [Hash.String]. *)
Class HashMethods : Type := {
  NewHash : string -> Hash;
  HashString : Hash -> string
}.

End plumbing.

Module object.
Import golang.

Record File : Type := mkFile {
  Name : string;
  Mode : Z;
  Hash : plumbing.Hash
}.

(** An [object.FileIter] is what its successive [Next] calls will return
    before [io.EOF]: files, or errors of the traversal. *)
Definition FileIter : Type := list (result File).

Definition FileIter_Next (it : FileIter) : result File * FileIter :=
  match it with
  | [] => (Err EOF, [])
  | r :: rest => (r, rest)
  end.

(** A resolved tree: [ID()] and the iterator [Files()] gives, which walks
    the tree recursively. *)
Record Tree : Type := mkTree {
  ID : plumbing.Hash;
  Files : FileIter
}.

(** An [object.TreeIter], like [FileIter]. *)
Definition TreeIter : Type := list (result Tree).

Definition TreeIter_Next (it : TreeIter) : result Tree * TreeIter :=
  match it with
  | [] => (Err EOF, [])
  | r :: rest => (r, rest)
  end.

End object.

(* ===================================================================== *)
(** * The tree_entries table                                              *)
(* ===================================================================== *)

Module gitbase.
Import golang.
Import plumbing.

(** A repository of the dataset: its id and the two calls the table makes
    on its object store, [Repo.TreeObjects()] and [Repo.TreeObject(hash)]. *)
Record Repository : Type := mkRepository {
  ID : string;
  TreeObjects : result object.TreeIter;
  TreeObject : Hash -> result object.Tree
}.

(** Slice indexing [l[i]]; [None] is the index-out-of-range panic. *)
Definition index {A : Type} (l : list A) (i : Z) : option A :=
  if (i <? 0) || (Z.of_nat (length l) <=? i) then None else l !! Z.to_nat i.

Section Rows.
Context `{HM : HashMethods}.

Definition fileToRow (repoID : string) (t : object.Tree) (f : object.File) : sql.Row :=
  sql.NewRow
    [ sql.VText repoID;
      sql.VText (HashString (object.ID t));
      sql.VText (HashString (object.Hash f));
      sql.VText (FormatInt (int64 (object.Mode f)) 8);
      sql.VText (object.Name f) ].

Record fileIter : Type := mkFileIter {
  fi_repoID : string;
  fi_t : object.Tree;
  fi_fi : object.FileIter
}.

(** [fileIter.Next]: the row of the next file, or the error of the
    underlying iterator ([io.EOF] at its end); the iterator has advanced. *)
Definition fileIter_Next (i : fileIter) : result sql.Row * fileIter :=
  let '(r, rest) := object.FileIter_Next (fi_fi i) in
  let i' := mkFileIter (fi_repoID i) (fi_t i) rest in
  match r with
  | Err err => (Err err, i')
  | Ok f => (Ok (fileToRow (fi_repoID i) (fi_t i) f), i')
  end.

(** ** Full traversal *)

Record treeEntryIter : Type := mkTreeEntryIter {
  te_i : option object.TreeIter;
  te_fi : option fileIter;
  te_repoID : string
}.

(** [new(treeEntryIter)]. *)
Definition new_treeEntryIter : treeEntryIter :=
  mkTreeEntryIter None None "".

Definition treeEntryIter_NewIterator (i : treeEntryIter) (repo : Repository)
  : result treeEntryIter :=
  match TreeObjects repo with
  | Err err => Err err
  | Ok iter => Ok (mkTreeEntryIter (Some iter) None (ID repo))
  end.

(** The body of the [for] loop of [treeEntryIter.Next]. *)
Definition treeEntryIter_Next_body (i : treeEntryIter)
  : iteration treeEntryIter (result sql.Row * treeEntryIter) :=
  let next_row (i : treeEntryIter) (fi : fileIter) :=
    let '(row, fi') := fileIter_Next fi in
    match row with
    | Err EOF => Continue (mkTreeEntryIter (te_i i) None (te_repoID i))
    | Err err => Return (Err err, mkTreeEntryIter (te_i i) (Some fi') (te_repoID i))
    | Ok row => Return (Ok row, mkTreeEntryIter (te_i i) (Some fi') (te_repoID i))
    end in
  match te_fi i with
  | None =>
      match te_i i with
      | None => Panic
      | Some trees =>
          let '(tree, trees') := object.TreeIter_Next trees in
          match tree with
          | Err err => Return (Err err, mkTreeEntryIter (Some trees') None (te_repoID i))
          | Ok tree =>
              let fi := mkFileIter (te_repoID i) tree (object.Files tree) in
              next_row (mkTreeEntryIter (Some trees') (Some fi) (te_repoID i)) fi
          end
      end
  | Some fi => next_row i fi
  end.

(** Passes the loop can still make: two per tree still to come, one for an
    open file iterator. *)
Definition treeEntryIter_passes (i : treeEntryIter) : nat :=
  2 * length (default [] (te_i i)) + match te_fi i with Some _ => 1 | None => 0 end.

Definition treeEntryIter_Next (i : treeEntryIter)
  : exec (result sql.Row * treeEntryIter) :=
  iterate treeEntryIter_Next_body (S (treeEntryIter_passes i)) i.

(** ** Targeted traversal, by tree hash *)

Record treeEntriesByHashIter : Type := mkTreeEntriesByHashIter {
  bh_hashes : list string;
  bh_pos : Z;
  bh_repo : option Repository;
  bh_fi : option fileIter
}.

Definition treeEntriesByHashIter_NewIterator
  (i : treeEntriesByHashIter) (repo : Repository) : result treeEntriesByHashIter :=
  Ok (mkTreeEntriesByHashIter (bh_hashes i) 0 (Some repo) None).

(** The body of the [for] loop of [treeEntriesByHashIter.Next]. *)
Definition treeEntriesByHashIter_Next_body (i : treeEntriesByHashIter)
  : iteration treeEntriesByHashIter (result sql.Row * treeEntriesByHashIter) :=
  let next_row (i : treeEntriesByHashIter) (fi : fileIter) :=
    let '(row, fi') := fileIter_Next fi in
    match row with
    | Err EOF =>
        Continue (mkTreeEntriesByHashIter (bh_hashes i) (bh_pos i) (bh_repo i) None)
    | Err err =>
        Return (Err err, mkTreeEntriesByHashIter (bh_hashes i) (bh_pos i) (bh_repo i) (Some fi'))
    | Ok row =>
        Return (Ok row, mkTreeEntriesByHashIter (bh_hashes i) (bh_pos i) (bh_repo i) (Some fi'))
    end in
  match bh_fi i with
  | None =>
      if Z.of_nat (length (bh_hashes i)) <=? bh_pos i then Return (Err EOF, i)
      else
        match index (bh_hashes i) (bh_pos i) with
        | None => Panic
        | Some h =>
            let hash := NewHash h in
            let i := mkTreeEntriesByHashIter (bh_hashes i) (bh_pos i + 1) (bh_repo i) None in
            match bh_repo i with
            | None => Panic
            | Some repo =>
                match TreeObject repo hash with
                | Err ErrObjectNotFound => Continue i
                | Err err => Return (Err err, i)
                | Ok tree =>
                    let fi := mkFileIter (ID repo) tree (object.Files tree) in
                    next_row (mkTreeEntriesByHashIter (bh_hashes i) (bh_pos i) (bh_repo i) (Some fi)) fi
                end
            end
        end
  | Some fi => next_row i fi
  end.

(** Passes the loop can still make: two per hash still to resolve, one for
    an open file iterator. *)
Definition treeEntriesByHashIter_passes (i : treeEntriesByHashIter) : nat :=
  2 * (length (bh_hashes i) - Z.to_nat (bh_pos i)) + match bh_fi i with Some _ => 1 | None => 0 end.

Definition treeEntriesByHashIter_Next (i : treeEntriesByHashIter)
  : exec (result sql.Row * treeEntriesByHashIter) :=
  iterate treeEntriesByHashIter_Next_body (S (treeEntriesByHashIter_passes i)) i.

(** ** The interface both iterators implement *)

Inductive RowRepoIter : Type :=
| TreeEntryIter (i : treeEntryIter)
| TreeEntriesByHashIter (i : treeEntriesByHashIter).

Definition NewIterator (i : RowRepoIter) (repo : Repository) : result RowRepoIter :=
  match i with
  | TreeEntryIter i =>
      match treeEntryIter_NewIterator i repo with
      | Ok i' => Ok (TreeEntryIter i')
      | Err err => Err err
      end
  | TreeEntriesByHashIter i =>
      match treeEntriesByHashIter_NewIterator i repo with
      | Ok i' => Ok (TreeEntriesByHashIter i')
      | Err err => Err err
      end
  end.

Definition Next (i : RowRepoIter) : exec (result sql.Row * RowRepoIter) :=
  match i with
  | TreeEntryIter i =>
      match treeEntryIter_Next i with
      | Returns (r, i') => Returns (r, TreeEntryIter i')
      | Panics => Panics
      | OutOfFuel => OutOfFuel
      end
  | TreeEntriesByHashIter i =>
      match treeEntriesByHashIter_Next i with
      | Returns (r, i') => Returns (r, TreeEntriesByHashIter i')
      | Panics => Panics
      | OutOfFuel => OutOfFuel
      end
  end.

End Rows.

(** ** The table *)

(** Selectors map a column name to the selectors extracted for it from the
    filters, each a list of values. *)
Definition selector : Type := list sql.Value.

Abbreviation selectors := (gmap string (list selector)).

(** [selectors[key]]: a missing key gives the nil slice. *)
Definition selectorsAt (s : selectors) (key : string) : list selector :=
  default [] (s !! key).

(** What the table takes from the rest of the package and from the engine. *)
Class TableEnv : Type := {
  (** the constant [TreeEntriesTableName] *)
  TreeEntriesTableName : string;
  (** [selectors.textValues(key)] *)
  textValues : selectors -> string -> result (list string);
  (** [sql.RowIter] *)
  RowIter : Type;
  (** [rowIterWithSelectors(ctx, schema, tableName, filters, columns, rowRepoIter)] *)
  rowIterWithSelectors :
    sql.Context -> sql.Schema -> string -> list sql.Expression -> list string ->
    (selectors -> result RowRepoIter) -> result RowIter;
  (** [sql.NewSpanIter(span, iter)] *)
  NewSpanIter : string -> RowIter -> RowIter
}.

(** [ctx.Span(name)]: the span and the context that carries it. *)
Definition Span (ctx : sql.Context) (name : string) : string * sql.Context :=
  (name, sql.mkContext (name :: sql.spans ctx)).

Section Table.
Context `{HM : HashMethods} `{TE : TableEnv}.

Definition TreeEntriesSchema : sql.Schema :=
  [ sql.mkColumn "repository_id" sql.Text false TreeEntriesTableName;
    sql.mkColumn "tree_hash" sql.Text false TreeEntriesTableName;
    sql.mkColumn "blob_hash" sql.Text false TreeEntriesTableName;
    sql.mkColumn "tree_entry_mode" sql.Text false TreeEntriesTableName;
    sql.mkColumn "tree_entry_name" sql.Text false TreeEntriesTableName ].

(** The methods of [treeEntriesTable] behind [sql.Table]. *)
Definition treeEntriesTable : sql.Table :=
  sql.mkTable TreeEntriesTableName TreeEntriesSchema.

Definition treeEntriesTable_Resolved : bool := true.

(** The columns [WithProjectAndFilters] asks selectors for. *)
Definition treeEntriesIndexableColumns : list string := ["tree_hash"].

(** The function literal [WithProjectAndFilters] hands to
    [rowIterWithSelectors]: from the extracted selectors to the iterator the
    scan is driven with. *)
Definition treeEntriesRowRepoIter (selectors : selectors) : result RowRepoIter :=
  if Z.of_nat (length (selectorsAt selectors "tree_hash")) =? 0
  then Ok (TreeEntryIter new_treeEntryIter)
  else
    match textValues selectors "tree_hash" with
    | Err err => Err err
    | Ok hashes => Ok (TreeEntriesByHashIter (mkTreeEntriesByHashIter hashes 0 None None))
    end.

Definition WithProjectAndFilters
  (ctx : sql.Context) (projection filters : list sql.Expression) : result RowIter :=
  let '(span, ctx) := Span ctx "gitbase.TreeEntriesTable" in
  match
    rowIterWithSelectors ctx TreeEntriesSchema TreeEntriesTableName filters
      treeEntriesIndexableColumns treeEntriesRowRepoIter
  with
  | Err err => Err err
  | Ok iter => Ok (NewSpanIter span iter)
  end.

End Table.

End gitbase.

(* ===================================================================== *)
(** * A concrete engine, to run the definitions                          *)
(* ===================================================================== *)

Module demo.
Import sql.

(** String forms in the manner of the engine. *)
Fixpoint exprString (e : Expression) : string :=
  match e with
  | AggregationFn fn Child => fn +:+ "(" +:+ exprString Child +:+ ")"
  | Alias Child name => exprString Child +:+ " as " +:+ name
  | GetField _ name => name
  | Literal (VText s) => s
  | Literal _ => "?"
  | TupleExpr _ => "(...)"
  | OtherExpr tag => tag
  end.

Fixpoint exprType (e : Expression) : Type_ :=
  match e with
  | AggregationFn _ _ => Int64
  | Alias Child _ => exprType Child
  | GetField _ _ => Text
  | Literal (VInt _) => Int64
  | Literal (VBool _) => Boolean
  | Literal _ => Text
  | TupleExpr exprs => Tuple (map exprType exprs)
  | OtherExpr _ => Text
  end.

Definition expressionMethods : ExpressionMethods :=
  {| ExprString := exprString; ExprType := exprType |}.

Definition typeMethods : TypeMethods :=
  {| IsTuple := fun t => match t with Tuple _ => true | _ => false end;
     NumColumns := fun t => match t with Tuple elems => Z.of_nat (length elems) | _ => 1 end |}.

(** Two tables: [commits], sound, and [broken], with a column sourced from
    another table.  A node is resolved unless it is, or sits on, the node
    ["unresolved"]. *)
Definition tableOf (n : Node) : option Table :=
  match n with
  | OtherNode "commits" =>
      Some (mkTable "commits" [mkColumn "hash" Text false "commits";
                               mkColumn "message" Text false "commits"])
  | OtherNode "broken" =>
      Some (mkTable "broken" [mkColumn "a" Text false "broken";
                              mkColumn "b" Text false "elsewhere";
                              mkColumn "c" Text false "nowhere"])
  | _ => None
  end.

Fixpoint resolved (n : Node) : bool :=
  match n with
  | Sort _ Child | GroupBy _ _ Child | Project _ Child | TableAlias Child _ => resolved Child
  | OtherNode id => negb (String.eqb id "unresolved")
  end.

Definition nodeMethods : NodeMethods :=
  {| Resolved := resolved; asTable := tableOf |}.

Definition ctx : Context := mkContext [].

(** ** A small dataset *)

(** Hashes written as text, read back the same. *)
Definition hashMethods : plumbing.HashMethods :=
  {| plumbing.NewHash := fun s =>
       plumbing.mkHash (map (fun c => Z.of_N (N_of_ascii c)) (String.list_ascii_of_string s));
     plumbing.HashString := fun h =>
       String.string_of_list_ascii (map (fun b => ascii_of_N (Z.to_N b)) (plumbing.hashBytes h)) |}.

Definition hash (s : string) : plumbing.Hash := @plumbing.NewHash hashMethods s.

Definition fileA : object.File := object.mkFile "a.txt" 33188 (hash "b1").
Definition fileB : object.File := object.mkFile "lib/b.go" 33261 (hash "b2").
Definition fileC : object.File := object.mkFile "c.md" 33188 (hash "b3").

Definition treeT1 : object.Tree :=
  object.mkTree (hash "T1") [golang.Ok fileA; golang.Ok fileB].

(** The traversal of [treeT2] fails after its first file. *)
Definition treeT2 : object.Tree :=
  object.mkTree (hash "T2") [golang.Ok fileC; golang.Err (golang.ErrOther "corrupt blob")].

(** An object store as a table from hash text to what resolving gives;
    other hashes are not found. *)
Fixpoint resolve (store : list (string * golang.result object.Tree)) (h : plumbing.Hash)
  : golang.result object.Tree :=
  match store with
  | [] => golang.Err golang.ErrObjectNotFound
  | (name, r) :: rest =>
      if String.eqb name (@plumbing.HashString hashMethods h) then r else resolve rest h
  end.

Definition repoA : gitbase.Repository :=
  gitbase.mkRepository "repoA" (golang.Ok [golang.Ok treeT1; golang.Ok treeT2])
    (resolve [("T1", golang.Ok treeT1); ("T2", golang.Ok treeT2)]).

(** [repoB] lacks T1, and reading its T3 fails. *)
Definition repoB : gitbase.Repository :=
  gitbase.mkRepository "repoB" (golang.Ok [golang.Ok treeT2])
    (resolve [("T2", golang.Ok treeT2); ("T3", golang.Err (golang.ErrOther "short read"))]).

(** Text values of the first selector of a column. *)
Fixpoint texts (values : list Value) : golang.result (list string) :=
  match values with
  | [] => golang.Ok []
  | VText s :: rest =>
      match texts rest with
      | golang.Ok l => golang.Ok (s :: l)
      | golang.Err e => golang.Err e
      end
  | _ :: _ => golang.Err (golang.ErrOther "not a text value")
  end.

(** Every filter [Literal v] constrains tree_hash to [v]; the scan is
    the iterator the table chose. *)
Definition literals (filters : list Expression) : list Value :=
  flat_map (fun e => match e with Literal v => [v] | _ => [] end) filters.

Definition tableEnv : gitbase.TableEnv :=
  {| gitbase.TreeEntriesTableName := "tree_entries";
     gitbase.textValues := fun s key =>
       match gitbase.selectorsAt s key with
       | [] => golang.Ok []
       | values :: _ => texts values
       end;
     gitbase.RowIter := gitbase.RowRepoIter;
     gitbase.rowIterWithSelectors := fun _ _ _ filters _ rowRepoIter =>
       match literals filters with
       | [] => rowRepoIter (∅ : gmap string (list gitbase.selector))
       | values => rowRepoIter ({[ "tree_hash" := [values] ]} : gmap string (list gitbase.selector))
       end;
     gitbase.NewSpanIter := fun _ iter => iter |}.

(** By-hash iterators bound to the two repositories. *)
Definition byHashA : gitbase.treeEntriesByHashIter :=
  gitbase.mkTreeEntriesByHashIter ["T1"; "T2"] 0 (Some repoA) None.

Definition byHashB : gitbase.treeEntriesByHashIter :=
  gitbase.mkTreeEntriesByHashIter ["T1"; "T3"; "T2"] 0 (Some repoB) None.

(** A tree and a repository without failures. *)
Definition treeT3 : object.Tree :=
  object.mkTree (hash "T3") [golang.Ok fileC].

Definition repoC : gitbase.Repository :=
  gitbase.mkRepository "repoC" (golang.Ok [golang.Ok treeT1; golang.Ok treeT3])
    (resolve [("T1", golang.Ok treeT1); ("T3", golang.Ok treeT3)]).

(** A plan in which the node ["tree_entries"] is the table. *)
Definition tableNodeMethods : NodeMethods :=
  {| Resolved := resolved;
     asTable := fun n =>
       match n with
       | OtherNode "tree_entries" => Some (@gitbase.treeEntriesTable tableEnv)
       | _ => tableOf n
       end |}.

End demo.

(* ===================================================================== *)
(** * Vocabulary of the properties                                        *)
(* ===================================================================== *)

Import sql analyzer golang plumbing gitbase.

(** [x] is the first element of [l] that satisfies [P], at index [i]. *)
Definition firstAt {A : Type} (P : A -> Prop) (l : list A) (i : nat) (x : A) : Prop :=
  l !! i = Some x /\ P x /\
  forall j y, (j < i)%nat -> l !! j = Some y -> ~ P y.

(** An expression with its alias wrappers removed, recursively. *)
Fixpoint unwrapAlias (e : Expression) : Expression :=
  match e with
  | Alias Child _ => unwrapAlias Child
  | _ => e
  end.

(** The test the group-by rule ends up making on an output expression:
    without its aliases it is neither an aggregation nor, by its string
    form, one of the grouping expressions. *)
Definition notGrouped `{ExpressionMethods} (Grouping : list Expression) (e : Expression) : Prop :=
  isAggregation (unwrapAlias e) = false /\
  ~ In (ExprString (unwrapAlias e)) (map ExprString Grouping).

(** The same test read off the sentence "neither an aggregation nor, after
    recursively unwrapping alias wrappers, string-equal to one of the
    grouping expressions": the aggregation test is made on the expression
    itself, the string test on the unwrapped one. *)
Definition notGroupedAsWorded `{ExpressionMethods} (Grouping : list Expression) (e : Expression) : Prop :=
  isAggregation e = false /\
  ~ In (ExprString (unwrapAlias e)) (map ExprString Grouping).

(** A column whose source is not the table [name]. *)
Definition foreignSource (name : string) (col : Column) : Prop :=
  Source col <> name.

(** An expression whose static type is a tuple. *)
Definition tupleTyped `{ExpressionMethods} `{TypeMethods} (e : Expression) : Prop :=
  IsTuple (ExprType e) = true.

(** The table the schema-source rule is about, if any: for an alias, its
    child when that is a table; otherwise the node itself when it is one. *)
Definition checkedTable `{NodeMethods} (n : Node) : option Table :=
  match n with
  | TableAlias Child _ => asTable Child
  | _ => asTable n
  end.

(** The number a string of digits [0-9] writes in [base], the first
    character the most significant. *)
Fixpoint digitsValue (base : Z) (s : string) : Z :=
  match s with
  | EmptyString => 0
  | String c rest =>
      (Z.of_N (N_of_ascii c) - 48) * base ^ Z.of_nat (String.length rest)
      + digitsValue base rest
  end.

(** ** Row streams *)

(** What a consumer sees of an iterator: the rows it returns up to its
    first error, and that error ([io.EOF] for the end of the data). *)
Definition stream : Type := (list Row * error)%type.

(** A stream, then, if it ended with [io.EOF], another. *)
Definition andThen (s : stream) (next : stream) : stream :=
  match snd s with
  | EOF => ((fst s ++ fst next)%list, snd next)
  | _ => s
  end.

(** One pass of a row loop read on the stream [rem] that remains in a
    state: a pass that continues leaves it as it is, a pass that returns a
    row takes its head, a pass that returns an error is at its end. *)
Definition passStream {S : Type} (body : S -> iteration S (result Row * S))
  (Inv : S -> Prop) (rem : S -> stream) (s : S) : Prop :=
  match body s with
  | Continue s' => rem s' = rem s /\ Inv s'
  | Return (Ok row, s') => rem s = (row :: fst (rem s'), snd (rem s')) /\ Inv s'
  | Return (Err err, _) => rem s = ([], err)
  | Panic => False
  end.

(** The shape of a row of the table for the repository [repoID]: the five
    text values of one file of one tree, in the order of the schema. *)
Definition rowShape `{HashMethods} (repoID : string) (row : Row) : Prop :=
  exists (t : object.Tree) (f : object.File),
    In (Ok f) (object.Files t) /\
    row = [ VText repoID;
            VText (HashString (object.ID t));
            VText (HashString (object.Hash f));
            VText (FormatInt (int64 (object.Mode f)) 8);
            VText (object.Name f) ].

Section Streams.
Context `{HM : HashMethods}.

(** The rows of the files a traversal still has to give. *)
Fixpoint filesStream (repoID : string) (t : object.Tree) (files : object.FileIter) : stream :=
  match files with
  | [] => ([], EOF)
  | Err err :: _ => ([], err)
  | Ok f :: rest =>
      let s := filesStream repoID t rest in
      (fileToRow repoID t f :: fst s, snd s)
  end.

(** The rows of the trees of [hashes] in [repo], in order: a hash that is
    not found contributes nothing, any other failure ends the stream. *)
Fixpoint byHashStream (repo : Repository) (hashes : list string) : stream :=
  match hashes with
  | [] => ([], EOF)
  | h :: rest =>
      match TreeObject repo (NewHash h) with
      | Err ErrObjectNotFound => byHashStream repo rest
      | Err err => ([], err)
      | Ok tree =>
          andThen (filesStream (ID repo) tree (object.Files tree)) (byHashStream repo rest)
      end
  end.

(** The rows of the trees an [object.TreeIter] still has to give. *)
Fixpoint treesStream (repoID : string) (trees : object.TreeIter) : stream :=
  match trees with
  | [] => ([], EOF)
  | Err err :: _ => ([], err)
  | Ok tree :: rest =>
      andThen (filesStream repoID tree (object.Files tree)) (treesStream repoID rest)
  end.

(** Calling [Next] until it returns an error, at most [fuel] times. *)
Fixpoint drain (fuel : nat) (i : RowRepoIter) : exec stream :=
  match fuel with
  | O => OutOfFuel
  | S fuel' =>
      match Next i with
      | Returns (Ok row, i') =>
          match drain fuel' i' with
          | Returns s => Returns (row :: fst s, snd s)
          | Panics => Panics
          | OutOfFuel => OutOfFuel
          end
      | Returns (Err err, _) => Returns ([], err)
      | Panics => Panics
      | OutOfFuel => OutOfFuel
      end
  end.

(** An open file iterator of an iterator bound to the repository [repoID]:
    it carries that id and is somewhere in the traversal of its tree. *)
Definition fileIterOf (repoID : string) (fi : fileIter) : Prop :=
  fi_repoID fi = repoID /\
  exists done, object.Files (fi_t fi) = (done ++ fi_fi fi)%list.

(** A per-repository iterator as [NewIterator] makes it for the repository
    [repoID], and as [Next] keeps it. *)
Definition boundTo (repoID : string) (i : RowRepoIter) : Prop :=
  match i with
  | TreeEntryIter i =>
      te_repoID i = repoID /\ is_Some (te_i i) /\
      forall fi, te_fi i = Some fi -> fileIterOf repoID fi
  | TreeEntriesByHashIter i =>
      (exists repo, bh_repo i = Some repo /\ ID repo = repoID) /\
      0 <= bh_pos i <= Z.of_nat (length (bh_hashes i)) /\
      forall fi, bh_fi i = Some fi -> fileIterOf repoID fi
  end.

(** The stream an iterator still has to give, from its state. *)
Definition byHashRemaining (i : treeEntriesByHashIter) : stream :=
  match bh_repo i with
  | None => ([], EOF)
  | Some repo =>
      let rest := byHashStream repo (drop (Z.to_nat (bh_pos i)) (bh_hashes i)) in
      match bh_fi i with
      | None => rest
      | Some fi => andThen (filesStream (fi_repoID fi) (fi_t fi) (fi_fi fi)) rest
      end
  end.

Definition treeEntryRemaining (i : treeEntryIter) : stream :=
  let rest := treesStream (te_repoID i) (default [] (te_i i)) in
  match te_fi i with
  | None => rest
  | Some fi => andThen (filesStream (fi_repoID fi) (fi_t fi) (fi_fi fi)) rest
  end.

Definition remaining (i : RowRepoIter) : stream :=
  match i with
  | TreeEntryIter i => treeEntryRemaining i
  | TreeEntriesByHashIter i => byHashRemaining i
  end.

End Streams.

(** ** Further vocabulary of the scan *)

(** A value of the type a column declares; [VNil] is SQL's NULL, of every
    type. *)
Definition valueOfType (v : Value) (t : Type_) : Prop :=
  match v, t with
  | VNil, _ => True
  | VText _, Text => True
  | VInt _, Int64 => True
  | VBool _, Boolean => True
  | _, _ => False
  end.

(** A row that fits a schema: a value per column, in order, of the column's
    type, and no NULL where the column is not nullable. *)
Definition rowFits (row : Row) (schema : Schema) : Prop :=
  Forall2 (fun v col => valueOfType v (Type' col) /\ (Nullable col = false -> v <> VNil))
          row schema.

(** Octal digits. *)
Definition isOctalDigit (c : ascii) : Prop :=
  (48 <= N_of_ascii c <= 55)%N.

Fixpoint allChars (P : ascii -> Prop) (s : string) : Prop :=
  match s with
  | EmptyString => True
  | String c rest => P c /\ allChars P rest
  end.

Section ScanVocabulary.
Context `{HM : HashMethods}.

(** The hash [h] names no object of [repo]. *)
Definition notFoundIn (repo : Repository) (h : string) : bool :=
  match TreeObject repo (NewHash h) with
  | Err ErrObjectNotFound => true
  | _ => false
  end.

(** A row of a file of a tree that one of [hashes] resolves to in [repo]. *)
Definition rowOfAskedTree (repo : Repository) (hashes : list string) (row : Row) : Prop :=
  exists (h : string) (t : object.Tree) (f : object.File),
    In h hashes /\ TreeObject repo (NewHash h) = Ok t /\
    In (Ok f) (object.Files t) /\ row = fileToRow (ID repo) t f.

(** A row of a file of a tree that the tree iterator [trees] gives. *)
Definition rowOfEnumeratedTree (repoID : string) (trees : object.TreeIter) (row : Row) : Prop :=
  exists (t : object.Tree) (f : object.File),
    In (Ok t) trees /\ In (Ok f) (object.Files t) /\ row = fileToRow repoID t f.

(** The rows of a tree with the files [files], all of them. *)
Definition rowsOfFiles (repoID : string) (tf : object.Tree * list object.File) : list Row :=
  map (fileToRow repoID (fst tf)) (snd tf).

(** The by-hash iterator [NewIterator] makes for [repo] from [hashes]. *)
Definition byHashFor (repo : Repository) (hashes : list string) : RowRepoIter :=
  TreeEntriesByHashIter (mkTreeEntriesByHashIter hashes 0 (Some repo) None).

End ScanVocabulary.

(** A plan node that is the tree_entries table: a node of a type of its
    own, which answers [Resolved()], [Name()] and [Schema()] as the table
    does. *)
Definition isTreeEntriesTable `{NodeMethods} `{TableEnv} (n : Node) : Prop :=
  (exists id, n = OtherNode id) /\
  Resolved n = treeEntriesTable_Resolved /\
  asTable n = Some treeEntriesTable.

(* ===================================================================== *)
(** * Properties of the validation rules                                  *)
(* ===================================================================== *)

Section FirstAt.
Context {A : Type} (P : A -> Prop).

Lemma firstAt_here (x : A) (l : list A) :
  P x -> firstAt P (x :: l) 0 x.
Proof.
  intros HP. repeat split; auto. intros j y Hj. lia.
Qed.

Lemma firstAt_later (x y : A) (l : list A) (i : nat) :
  ~ P x -> firstAt P l i y -> firstAt P (x :: l) (S i) y.
Proof.
  intros HP (Hl & Hy & Hb). split; [exact Hl|]. split; [exact Hy|].
  intros [|j] z Hj Hz; simpl in Hz.
  - congruence.
  - apply (Hb j z); [lia | exact Hz].
Qed.

Lemma firstAt_cons_inv (x y : A) (l : list A) (i : nat) :
  firstAt P (x :: l) i y ->
  (i = 0%nat /\ y = x /\ P x) \/
  (exists i', i = S i' /\ ~ P x /\ firstAt P l i' y).
Proof.
  intros (Hl & Hy & Hb). destruct i as [|i'].
  - left. simpl in Hl. split; [reflexivity|]. split; congruence.
  - right. exists i'. split; [reflexivity|]. split.
    + apply (Hb 0%nat x); [lia | reflexivity].
    + split; [exact Hl|]. split; [exact Hy|]. intros j z Hj Hz.
      apply (Hb (S j) z); [lia | exact Hz].
Qed.

Lemma firstAt_nil (i : nat) (y : A) : ~ firstAt P [] i y.
Proof. intros (Hl & _). destruct i; discriminate. Qed.

Lemma firstAt_unique (l : list A) (i j : nat) (x y : A) :
  firstAt P l i x -> firstAt P l j y -> i = j /\ x = y.
Proof.
  intros (Hi & Hx & Hbi) (Hj & Hy & Hbj).
  destruct (Nat.lt_trichotomy i j) as [Hlt | [Heq | Hgt]].
  - destruct (Hbj i x Hlt Hi Hx).
  - subst j. split; [reflexivity | congruence].
  - destruct (Hbi j y Hgt Hj Hy).
Qed.

Lemma firstAt_In (l : list A) (i : nat) (x : A) :
  firstAt P l i x -> In x l /\ P x.
Proof.
  intros (Hl & Hx & _). split; [|exact Hx].
  apply list_elem_of_In. eapply list_elem_of_lookup_2. exact Hl.
Qed.

End FirstAt.

Lemma stringContains_In (strs : list string) (target : string) :
  stringContains strs target = true <-> In target strs.
Proof.
  induction strs as [|s rest IH]; simpl.
  - split; [discriminate | tauto].
  - destruct (String.eqb_spec s target) as [-> | Hne].
    + split; auto.
    + rewrite IH. split; [tauto | intros [Heq | Hin]; [congruence | exact Hin]].
Qed.

Lemma stringContains_not_In (strs : list string) (target : string) :
  stringContains strs target = false <-> ~ In target strs.
Proof.
  rewrite <- stringContains_In. destruct (stringContains strs target); split; congruence.
Qed.

Lemma isAggregation_unwrapAlias (e : Expression) :
  isAggregation e = true -> unwrapAlias e = e.
Proof. destruct e; simpl; congruence. Qed.

Section RuleProperties.
Context `{EM : ExpressionMethods} `{TM : TypeMethods} `{NM : NodeMethods}.

(** ** validateOrderBy *)

Lemma orderByFields_error (fields : list SortField) (err : Error) :
  orderByFields fields = Some err <->
  err = ErrValidationOrderBy /\
  exists field, In field fields /\ isAggregation (Column_ field) = true.
Proof.
  induction fields as [|f rest IH]; simpl.
  - split; [discriminate | intros (_ & x & [] & _)].
  - destruct (isAggregation (Column_ f)) eqn:Hf.
    + split.
      * intros [= <-]. split; [reflexivity|]. exists f. auto.
      * intros (-> & _). reflexivity.
    + rewrite IH. split; intros (He & x & Hx & Hagg); (split; [exact He|]).
      * exists x. auto.
      * destruct Hx as [<- | Hx]; [congruence|]. exists x. auto.
Qed.

Lemma orderByFields_pass (fields : list SortField) :
  orderByFields fields = None <->
  forall field, In field fields -> isAggregation (Column_ field) = false.
Proof.
  induction fields as [|f rest IH]; simpl.
  - split; [intros _ x [] | reflexivity].
  - destruct (isAggregation (Column_ f)) eqn:Hf.
    + split; [discriminate|]. intros Hall. specialize (Hall f (or_introl eq_refl)). congruence.
    + rewrite IH. split.
      * intros Hall x [<- | Hx]; auto.
      * intros Hall x Hx. apply Hall. right. exact Hx.
Qed.

(** ** validateGroupBy *)

Lemma isValidAgg_unwrapAlias (validAggs : list string) (e : Expression) :
  isValidAgg validAggs e =
  isAggregation (unwrapAlias e) || stringContains validAggs (ExprString (unwrapAlias e)).
Proof.
  induction e; simpl; auto.
Qed.

Lemma groupBy_test (Grouping : list Expression) (e : Expression) :
  negb (isAggregation e) && negb (isValidAgg (map ExprString Grouping) e) = true <->
  notGrouped Grouping e.
Proof.
  unfold notGrouped. rewrite isValidAgg_unwrapAlias, andb_true_iff, !negb_true_iff,
    orb_false_iff, stringContains_not_In.
  split.
  - tauto.
  - intros (Hagg & Hnot). split; [|tauto].
    destruct (isAggregation e) eqn:He; [|reflexivity].
    rewrite (isAggregation_unwrapAlias e He) in Hagg. congruence.
Qed.

Lemma groupByAggregates_error (Grouping exprs : list Expression) (err : Error) :
  groupByAggregates (map ExprString Grouping) exprs = Some err <->
  exists i e, firstAt (notGrouped Grouping) exprs i e /\
              err = ErrValidationGroupBy (ExprString e).
Proof.
  induction exprs as [|x rest IH]; simpl.
  - split; [discriminate | intros (i & e & Hf & _); destruct (firstAt_nil _ _ _ Hf)].
  - destruct (negb (isAggregation x) && negb (isValidAgg (map ExprString Grouping) x)) eqn:Hx.
    + apply groupBy_test in Hx. split.
      * intros [= <-]. exists 0%nat, x. split; [apply firstAt_here; exact Hx | reflexivity].
      * intros (i & e & Hf & ->).
        destruct (firstAt_cons_inv _ _ _ _ _ Hf) as [(_ & -> & _) | (i' & _ & Hn & _)];
          [reflexivity | contradiction].
    + assert (Hn : ~ notGrouped Grouping x).
      { intros Hg. apply groupBy_test in Hg. congruence. }
      rewrite IH. split.
      * intros (i & e & Hf & ->). exists (S i), e. split; [apply firstAt_later; assumption | reflexivity].
      * intros (i & e & Hf & ->).
        destruct (firstAt_cons_inv _ _ _ _ _ Hf) as [(_ & -> & Hp) | (i' & _ & _ & Hf')];
          [contradiction|]. exists i', e. auto.
Qed.

Lemma groupByAggregates_pass (Grouping exprs : list Expression) :
  groupByAggregates (map ExprString Grouping) exprs = None <->
  forall e, In e exprs -> ~ notGrouped Grouping e.
Proof.
  induction exprs as [|x rest IH]; simpl.
  - split; [intros _ e [] | reflexivity].
  - destruct (negb (isAggregation x) && negb (isValidAgg (map ExprString Grouping) x)) eqn:Hx.
    + apply groupBy_test in Hx. split; [discriminate|].
      intros Hall. destruct (Hall x (or_introl eq_refl) Hx).
    + assert (Hn : ~ notGrouped Grouping x).
      { intros Hg. apply groupBy_test in Hg. congruence. }
      rewrite IH. split.
      * intros Hall e [<- | He]; auto.
      * intros Hall e He. apply Hall. right. exact He.
Qed.

(** ** validateSchemaSource *)

Lemma schemaColumns_error (name : string) (cols : Schema) (err : Error) :
  schemaColumns name cols = Some err <->
  exists i col, firstAt (foreignSource name) cols i col /\
                err = ErrValidationSchemaSource name (Source col).
Proof.
  induction cols as [|c rest IH]; simpl.
  - split; [discriminate | intros (i & e & Hf & _); destruct (firstAt_nil _ _ _ Hf)].
  - destruct (String.eqb_spec (Source c) name) as [Heq | Hne]; simpl.
    + assert (Hn : ~ foreignSource name c) by (unfold foreignSource; tauto).
      rewrite IH. split.
      * intros (i & e & Hf & ->). exists (S i), e. split; [apply firstAt_later; assumption | reflexivity].
      * intros (i & e & Hf & ->).
        destruct (firstAt_cons_inv _ _ _ _ _ Hf) as [(_ & -> & Hp) | (i' & _ & _ & Hf')];
          [contradiction|]. exists i', e. auto.
    + split.
      * intros [= <-]. exists 0%nat, c. split; [apply firstAt_here; exact Hne | reflexivity].
      * intros (i & e & Hf & ->).
        destruct (firstAt_cons_inv _ _ _ _ _ Hf) as [(_ & -> & _) | (i' & _ & Hn & _)];
          [reflexivity | contradiction].
Qed.

Lemma schemaColumns_pass (name : string) (cols : Schema) :
  schemaColumns name cols = None <->
  forall col, In col cols -> Source col = name.
Proof.
  induction cols as [|c rest IH]; simpl.
  - split; [intros _ e [] | reflexivity].
  - destruct (String.eqb_spec (Source c) name) as [Heq | Hne]; simpl.
    + rewrite IH. split.
      * intros Hall e [<- | He]; auto.
      * intros Hall e He. apply Hall. right. exact He.
    + split; [discriminate|]. intros Hall. destruct (Hne (Hall c (or_introl eq_refl))).
Qed.

(** ** validateProjectTuples *)

Lemma projectTuples_error (exprs : list Expression) (k : Z) (err : Error) :
  projectTuples k exprs = Some err <->
  exists i e, firstAt tupleTyped exprs i e /\
              err = ErrProjectTuple (k + Z.of_nat i + 1) (NumColumns (ExprType e)).
Proof.
  revert k. induction exprs as [|x rest IH]; intros k; simpl.
  - split; [discriminate | intros (i & e & Hf & _); destruct (firstAt_nil _ _ _ Hf)].
  - destruct (IsTuple (ExprType x)) eqn:Hx.
    + split.
      * intros [= <-]. exists 0%nat, x. split; [apply firstAt_here; exact Hx|].
        f_equal. lia.
      * intros (i & e & Hf & ->).
        destruct (firstAt_cons_inv _ _ _ _ _ Hf) as [(-> & -> & _) | (i' & _ & Hn & _)];
          [do 2 f_equal; lia | contradiction].
    + assert (Hn : ~ tupleTyped x) by (unfold tupleTyped; congruence).
      rewrite IH. split.
      * intros (i & e & Hf & ->). exists (S i), e. split; [apply firstAt_later; assumption|].
        f_equal. lia.
      * intros (i & e & Hf & ->).
        destruct (firstAt_cons_inv _ _ _ _ _ Hf) as [(_ & -> & Hp) | (i' & -> & _ & Hf')];
          [contradiction|]. exists i', e. split; [exact Hf'|]. f_equal. lia.
Qed.

Lemma projectTuples_pass (exprs : list Expression) (k : Z) :
  projectTuples k exprs = None <->
  forall e, In e exprs -> IsTuple (ExprType e) = false.
Proof.
  revert k. induction exprs as [|x rest IH]; intros k; simpl.
  - split; [intros _ e [] | reflexivity].
  - destruct (IsTuple (ExprType x)) eqn:Hx.
    + split; [discriminate|]. intros Hall. specialize (Hall x (or_introl eq_refl)). congruence.
    + rewrite IH. split.
      * intros Hall e [<- | He]; auto.
      * intros Hall e He. apply Hall. right. exact He.
Qed.

End RuleProperties.

Section ValidationRules.
Context `{EM : ExpressionMethods} `{TM : TypeMethods} `{NM : NodeMethods}.

(** C7. The resolved rule fails with [ErrValidationResolved], carrying the
    node (whose kind the message prints), exactly when the node reports
    itself not resolved; it passes exactly when the node reports itself
    resolved, whatever else the node is made of.  The rule is the head of
    [DefaultValidationRules]. *)
Theorem validateIsResolved_iff_unresolved (ctx : Context) (n : Node) :
  (validateIsResolved ctx n = Some (ErrValidationResolved n) <-> Resolved n = false) /\
  (validateIsResolved ctx n = None <-> Resolved n = true) /\
  head DefaultValidationRules = Some (mkRule validateResolvedRule validateIsResolved).
Proof.
  unfold validateIsResolved. destruct (Resolved n); simpl.
  - repeat split; try discriminate; reflexivity.
  - repeat split; try discriminate; reflexivity.
Qed.

(** C6. On a Sort node the order-by rule fails, with
    [ErrValidationOrderBy], exactly when some sort field's column is itself
    an aggregation, and passes exactly when none is; on any other node it
    passes. *)
Theorem validateOrderBy_iff_aggregation_key (ctx : Context) (n : Node) :
  match n with
  | Sort SortFields _ =>
      (forall err, validateOrderBy ctx n = Some err <->
         err = ErrValidationOrderBy /\
         exists field, In field SortFields /\ isAggregation (Column_ field) = true) /\
      (validateOrderBy ctx n = None <->
         forall field, In field SortFields -> isAggregation (Column_ field) = false)
  | _ => validateOrderBy ctx n = None
  end.
Proof.
  destruct n; simpl; try reflexivity.
  split; [intros err; apply orderByFields_error | apply orderByFields_pass].
Qed.

(** C1. On a GroupBy node without grouping expressions the
    group-by rule passes. With grouping expressions it fails exactly when
    some expression of the aggregate list, once its alias wrappers are
    removed, is neither an aggregation nor equal by its string form to the
    string form of a grouping expression; the error is
    [ErrValidationGroupBy] with the string form of the first such
    expression (as listed, aliases included). On any other node it passes. *)
Theorem validateGroupBy_iff_not_grouped (ctx : Context) (n : Node) :
  match n with
  | GroupBy Aggregate Grouping _ =>
      match Grouping with
      | [] => validateGroupBy ctx n = None
      | _ :: _ =>
          (forall err, validateGroupBy ctx n = Some err <->
             exists i e, firstAt (notGrouped Grouping) Aggregate i e /\
                         err = ErrValidationGroupBy (ExprString e)) /\
          (validateGroupBy ctx n = None <->
             forall e, In e Aggregate -> ~ notGrouped Grouping e)
      end
  | _ => validateGroupBy ctx n = None
  end.
Proof.
  destruct n as [| Aggregate Grouping child | | |]; simpl; try reflexivity.
  destruct Grouping as [|g Grouping]; [reflexivity|].
  change (Z.of_nat (length (g :: Grouping)) =? 0) with false. cbv iota.
  split; [intros err; apply groupByAggregates_error | apply groupByAggregates_pass].
Qed.

(** C5. The schema-source rule is about one table: the child of a
    TableAlias when that child is a table, the node itself when it is a
    table and not an alias. It fails exactly when a column of that table's
    schema has a source other than the table's name, with
    [ErrValidationSchemaSource] carrying the table's name and the source of
    the first such column; it passes when every column is sourced from the
    table. On every other node it passes. *)
Theorem validateSchemaSource_iff_foreign_column (ctx : Context) (n : Node) :
  match checkedTable n with
  | Some t =>
      (forall err, validateSchemaSource ctx n = Some err <->
         exists i col, firstAt (foreignSource (tableName t)) (tableSchema t) i col /\
                       err = ErrValidationSchemaSource (tableName t) (Source col)) /\
      (validateSchemaSource ctx n = None <->
         forall col, In col (tableSchema t) -> Source col = tableName t)
  | None => validateSchemaSource ctx n = None
  end.
Proof.
  assert (Hrule : validateSchemaSource ctx n =
                  match checkedTable n with Some t => validateSchema t | None => None end).
  { destruct n; reflexivity. }
  rewrite Hrule. destruct (checkedTable n) as [t|]; [|reflexivity].
  unfold validateSchema.
  split; [intros err; apply schemaColumns_error | apply schemaColumns_pass].
Qed.

(** C8. On a Project node (its projections) and on a GroupBy node (its
    aggregate list) the projection rule fails exactly when some expression
    of the list has a tuple type; the error is [ErrProjectTuple] with the
    1-indexed position [i + 1] of the first such expression, at index [i],
    and the number of columns of its type. It passes exactly when no
    expression of the list has a tuple type. *)
Theorem validateProjectTuples_iff_tuple_typed
  (ctx : Context) (exprs Grouping : list Expression) (child : Node) :
  let characterised (n : Node) :=
    (forall err, validateProjectTuples ctx n = Some err <->
       exists i e, firstAt tupleTyped exprs i e /\
                   err = ErrProjectTuple (Z.of_nat i + 1) (NumColumns (ExprType e))) /\
    (validateProjectTuples ctx n = None <->
       forall e, In e exprs -> IsTuple (ExprType e) = false) in
  characterised (Project exprs child) /\ characterised (GroupBy exprs Grouping child).
Proof.
  assert (Herr : forall l err,
             projectTuples 0 l = Some err <->
             exists i e, firstAt tupleTyped l i e /\
                         err = ErrProjectTuple (Z.of_nat i + 1) (NumColumns (ExprType e))).
  { intros l err. exact (projectTuples_error l 0 err). }
  simpl. split; (split; [intros err; apply Herr | apply projectTuples_pass]).
Qed.

End ValidationRules.

(** ** The rules on concrete plans *)

Section ValidationExamples.
Existing Instance demo.expressionMethods.
Existing Instance demo.typeMethods.
Existing Instance demo.nodeMethods.

(** C1, as worded. In [SELECT a, COUNT(b) AS n ... GROUP BY a] the aliased
    count is not itself an aggregation, and its string form without the
    alias, COUNT(b), is not the grouping column a; yet the rule passes. So
    with the aggregation test made before the aliases are removed, to fail
    if and only if some expression is neither an aggregation nor,
    unwrapped, equal to a grouping expression, does not hold of this
    plan. *)
Lemma validateGroupBy_aliased_aggregation_passes :
  let Grouping := [GetField 0 "a"] in
  let Aggregate := [GetField 0 "a"; Alias (AggregationFn "COUNT" (GetField 1 "b")) "n"] in
  let n := GroupBy Aggregate Grouping (OtherNode "commits") in
  ~ ((exists expr, validateGroupBy demo.ctx n = Some (ErrValidationGroupBy expr)) <->
     (exists e, In e Aggregate /\ notGroupedAsWorded Grouping e)).
Proof.
  intros Grouping Aggregate n [_ Hclaim].
  destruct Hclaim as [expr Herr]; [|discriminate Herr].
  exists (Alias (AggregationFn "COUNT" (GetField 1 "b")) "n").
  split; [right; left; reflexivity|].
  split; [reflexivity|].
  simpl. intros [Heq | []]. discriminate Heq.
Qed.

Example validateGroupBy_aliased_aggregation :
  validateGroupBy demo.ctx
    (GroupBy [GetField 0 "a"; Alias (AggregationFn "COUNT" (GetField 1 "b")) "n"]
             [GetField 0 "a"] (OtherNode "commits")) = None.
Proof. reflexivity. Qed.

Example validateGroupBy_no_grouping :
  validateGroupBy demo.ctx
    (GroupBy [GetField 0 "a"; OtherExpr "b + 1"] [] (OtherNode "commits")) = None.
Proof. reflexivity. Qed.

Example validateGroupBy_ungrouped_column :
  validateGroupBy demo.ctx
    (GroupBy [Alias (GetField 0 "a") "x"; AggregationFn "SUM" (GetField 2 "c");
              Alias (GetField 2 "c") "y"; GetField 3 "d"]
             [GetField 0 "a"; GetField 1 "b"] (OtherNode "commits"))
  = Some (ErrValidationGroupBy "c as y").
Proof. reflexivity. Qed.

Example validateIsResolved_unresolved_child :
  validateIsResolved demo.ctx (Project [GetField 0 "a"] (OtherNode "unresolved"))
  = Some (ErrValidationResolved (Project [GetField 0 "a"] (OtherNode "unresolved"))).
Proof. reflexivity. Qed.

Example validateOrderBy_aggregation_key :
  validateOrderBy demo.ctx
    (Sort [mkSortField (GetField 0 "a") Ascending;
           mkSortField (AggregationFn "COUNT" (GetField 1 "b")) Descending]
          (OtherNode "commits"))
  = Some ErrValidationOrderBy.
Proof. reflexivity. Qed.

Example validateOrderBy_plain_keys :
  validateOrderBy demo.ctx
    (Sort [mkSortField (GetField 0 "a") Ascending;
           mkSortField (Alias (AggregationFn "COUNT" (GetField 1 "b")) "n") Descending]
          (OtherNode "commits"))
  = None.
Proof. reflexivity. Qed.

Example validateSchemaSource_broken_table :
  validateSchemaSource demo.ctx (OtherNode "broken")
  = Some (ErrValidationSchemaSource "broken" "elsewhere").
Proof. reflexivity. Qed.

Example validateSchemaSource_alias_of_broken_table :
  validateSchemaSource demo.ctx (TableAlias (OtherNode "broken") "t")
  = Some (ErrValidationSchemaSource "broken" "elsewhere").
Proof. reflexivity. Qed.

Example validateSchemaSource_alias_of_sound_table :
  validateSchemaSource demo.ctx (TableAlias (OtherNode "commits") "c") = None.
Proof. reflexivity. Qed.

Example validateProjectTuples_third_field :
  validateProjectTuples demo.ctx
    (Project [GetField 0 "a"; Literal (VInt 1);
              TupleExpr [Literal (VInt 1); Literal (VInt 2); Literal (VInt 3)];
              TupleExpr [Literal (VInt 1); Literal (VInt 2)]]
             (OtherNode "commits"))
  = Some (ErrProjectTuple 3 3).
Proof. reflexivity. Qed.

Example validateProjectTuples_group_by :
  validateProjectTuples demo.ctx
    (GroupBy [TupleExpr [GetField 0 "a"; GetField 1 "b"]] [] (OtherNode "commits"))
  = Some (ErrProjectTuple 1 2).
Proof. reflexivity. Qed.

End ValidationExamples.

(* ===================================================================== *)
(** * Properties of bounded loops                                         *)
(* ===================================================================== *)

Section Iterate.
Context {S R : Type} (body : S -> iteration S R).

Lemma iterate_continue (fuel : nat) (s s' : S) :
  body s = Continue s' -> iterate body (Datatypes.S fuel) s = iterate body fuel s'.
Proof. intros H. simpl. rewrite H. reflexivity. Qed.

Lemma iterate_return (fuel : nat) (s : S) (r : R) :
  body s = Return r -> iterate body (Datatypes.S fuel) s = Returns r.
Proof. intros H. simpl. rewrite H. reflexivity. Qed.

Lemma iterate_panic (fuel : nat) (s : S) :
  body s = Panic -> iterate body (Datatypes.S fuel) s = Panics.
Proof. intros H. simpl. rewrite H. reflexivity. Qed.

(** More fuel does not change a run that ended. *)
Lemma iterate_more_fuel (fuel fuel' : nat) (s : S) :
  iterate body fuel s <> OutOfFuel -> (fuel <= fuel')%nat ->
  iterate body fuel' s = iterate body fuel s.
Proof.
  revert fuel' s. induction fuel as [|fuel IH]; intros fuel' s Hend Hle.
  - destruct Hend. reflexivity.
  - destruct fuel' as [|fuel']; [lia|]. simpl in *.
    destruct (body s) as [s'| |]; try reflexivity.
    apply IH; [exact Hend | lia].
Qed.

(** A loop whose every [continue] lowers a measure ends within that many
    passes, and one more to leave. *)
Lemma iterate_ends (passes : S -> nat) :
  (forall s s', body s = Continue s' -> (passes s' < passes s)%nat) ->
  forall fuel s, (passes s < fuel)%nat -> iterate body fuel s <> OutOfFuel.
Proof.
  intros Hdec. induction fuel as [|fuel IH]; intros s Hlt; [lia|]. simpl.
  destruct (body s) as [s'| |] eqn:Hb; try discriminate.
  apply IH. specialize (Hdec s s' Hb). lia.
Qed.

(** With the fuel a measure gives, the loop from [s] goes on as the loop
    from the state it continues with. *)
Lemma iterate_passes_continue (passes : S -> nat) (s s' : S) :
  (forall s s', body s = Continue s' -> (passes s' < passes s)%nat) ->
  body s = Continue s' ->
  iterate body (Datatypes.S (passes s)) s = iterate body (Datatypes.S (passes s')) s'.
Proof.
  intros Hdec Hb. rewrite (iterate_continue _ _ _ Hb).
  apply iterate_more_fuel.
  - apply (iterate_ends passes Hdec). lia.
  - specialize (Hdec s s' Hb). lia.
Qed.

End Iterate.

(* ===================================================================== *)
(** * Properties of the iterators                                         *)
(* ===================================================================== *)

Ltac by_hash_cases i :=
  unfold treeEntriesByHashIter_Next_body;
  let fi := fresh "fi" in
  let Hfi := fresh "Hfi" in
  destruct (bh_fi i) as [fi|] eqn:Hfi;
  [ destruct (fileIter_Next fi) as [[?row|[| |?msg]] ?fi'] eqn:?Hnext
  | destruct (Z.of_nat (length (bh_hashes i)) <=? bh_pos i) eqn:?Hend;
    [ | destruct (index (bh_hashes i) (bh_pos i)) as [?h|] eqn:?Hidx;
        [ cbn [bh_repo bh_hashes bh_pos bh_fi];
          destruct (bh_repo i) as [?repo|] eqn:?Hrepo;
          [ match goal with
            | |- context [TreeObject ?r ?x] =>
                destruct (TreeObject r x) as [?tree|[| |?msg]] eqn:?Hres;
                [ match goal with
                  | |- context [fileIter_Next ?f] =>
                      destruct (fileIter_Next f) as [[?row|[| |?msg]] ?fi'] eqn:?Hnext
                  end
                | | | ]
            end
          | ]
        | ] ] ].

Ltac tree_entry_cases i :=
  unfold treeEntryIter_Next_body;
  let fi := fresh "fi" in
  let Hfi := fresh "Hfi" in
  destruct (te_fi i) as [fi|] eqn:Hfi;
  [ destruct (fileIter_Next fi) as [[?row|[| |?msg]] ?fi'] eqn:?Hnext
  | destruct (te_i i) as [[|[?tree|?err] ?trees]|] eqn:?Htrees;
    cbn [object.TreeIter_Next];
    try match goal with
        | |- context [fileIter_Next ?f] =>
            destruct (fileIter_Next f) as [[?row|[| |?msg]] ?fi'] eqn:?Hnext
        end ].

Lemma index_Some {A : Type} (l : list A) (i : Z) (x : A) :
  index l i = Some x <-> 0 <= i < Z.of_nat (length l) /\ l !! Z.to_nat i = Some x.
Proof.
  unfold index. destruct (i <? 0) eqn:Hneg; simpl.
  - apply Z.ltb_lt in Hneg. split; [discriminate | lia].
  - apply Z.ltb_ge in Hneg. destruct (Z.of_nat (length l) <=? i) eqn:Hlen.
    + apply Z.leb_le in Hlen. split; [discriminate | lia].
    + apply Z.leb_gt in Hlen. split; [auto | tauto].
Qed.

Section ByHash.
Context `{HM : HashMethods}.

Lemma fileIter_Next_cases (fi : fileIter) :
  match fi_fi fi with
  | [] => fileIter_Next fi = (Err EOF, mkFileIter (fi_repoID fi) (fi_t fi) [])
  | Err err :: rest => fileIter_Next fi = (Err err, mkFileIter (fi_repoID fi) (fi_t fi) rest)
  | Ok f :: rest =>
      fileIter_Next fi =
      (Ok (fileToRow (fi_repoID fi) (fi_t fi) f), mkFileIter (fi_repoID fi) (fi_t fi) rest)
  end.
Proof.
  unfold fileIter_Next. destruct (fi_fi fi) as [|[f|err] rest]; reflexivity.
Qed.



Lemma treeEntriesByHashIter_continue_passes (i i' : treeEntriesByHashIter) :
  treeEntriesByHashIter_Next_body i = Continue i' ->
  (treeEntriesByHashIter_passes i' < treeEntriesByHashIter_passes i)%nat.
Proof.
  by_hash_cases i; intros Hb; try discriminate Hb; injection Hb as <-;
    unfold treeEntriesByHashIter_passes; cbn [bh_hashes bh_pos bh_fi]; try rewrite Hfi.
  - lia.
  - apply index_Some in Hidx. destruct Hidx as [Hr _]. lia.
  - apply index_Some in Hidx. destruct Hidx as [Hr _]. lia.
Qed.

Lemma andThen_eof (next : stream) : andThen ([], EOF) next = next.
Proof. destruct next; reflexivity. Qed.

Lemma andThen_error (rows : list Row) (err : error) (next : stream) :
  err <> EOF -> andThen (rows, err) next = (rows, err).
Proof. intros H. unfold andThen. simpl. destruct err; congruence. Qed.

Lemma andThen_cons (row : Row) (s next : stream) :
  andThen (row :: fst s, snd s) next =
  (row :: fst (andThen s next), snd (andThen s next)).
Proof. destruct s as [rows [| |msg]]; reflexivity. Qed.

Lemma fileIter_Next_stream (fi : fileIter) :
  match fileIter_Next fi with
  | (Ok row, fi') =>
      filesStream (fi_repoID fi) (fi_t fi) (fi_fi fi) =
      (row :: fst (filesStream (fi_repoID fi') (fi_t fi') (fi_fi fi')),
       snd (filesStream (fi_repoID fi') (fi_t fi') (fi_fi fi')))
  | (Err err, _) => filesStream (fi_repoID fi) (fi_t fi) (fi_fi fi) = ([], err)
  end.
Proof.
  pose proof (fileIter_Next_cases fi) as H.
  destruct (fi_fi fi) as [|[f|err] rest]; rewrite H; reflexivity.
Qed.

Lemma fileIter_Next_of (repoID : string) (fi fi' : fileIter) (r : result Row) :
  fileIterOf repoID fi -> fileIter_Next fi = (r, fi') -> fileIterOf repoID fi'.
Proof.
  intros [Hid [done Hdone]] Hnext.
  pose proof (fileIter_Next_cases fi) as H.
  destruct (fi_fi fi) as [|[f|err] rest] eqn:Hfiles; rewrite H in Hnext;
    injection Hnext as <- <-; (split; [exact Hid|]); cbn [fi_t fi_fi].
  - exists done. exact Hdone.
  - exists (done ++ [Ok f])%list. rewrite <- app_assoc. exact Hdone.
  - exists (done ++ [Err err])%list. rewrite <- app_assoc. exact Hdone.
Qed.

Lemma drop_index {A : Type} (l : list A) (i : Z) (x : A) :
  index l i = Some x ->
  drop (Z.to_nat i) l = x :: drop (Z.to_nat (i + 1)) l.
Proof.
  intros H. apply index_Some in H. destruct H as [Hr Hl].
  replace (Z.to_nat (i + 1)) with (S (Z.to_nat i)) by lia.
  apply drop_S. exact Hl.
Qed.


Lemma fileIterOf_opened (repoID : string) (tree : object.Tree) :
  fileIterOf repoID (mkFileIter repoID tree (object.Files tree)).
Proof. split; [reflexivity | exists (@nil (result object.File)); reflexivity]. Qed.

(** One pass of the loop, read on the stream that remains. *)
Lemma treeEntriesByHashIter_body_stream (repoID : string) (i : treeEntriesByHashIter) :
  boundTo repoID (TreeEntriesByHashIter i) ->
  match treeEntriesByHashIter_Next_body i with
  | Continue i' =>
      byHashRemaining i' = byHashRemaining i /\ boundTo repoID (TreeEntriesByHashIter i')
  | Return (Ok row, i') =>
      byHashRemaining i = (row :: fst (byHashRemaining i'), snd (byHashRemaining i')) /\
      boundTo repoID (TreeEntriesByHashIter i')
  | Return (Err err, i') => byHashRemaining i = ([], err)
  | Panic => False
  end.
Proof.
  intros [[repo0 [Hrepo0 <-]] [Hpos Hopen]].
  unfold byHashRemaining.
  by_hash_cases i; cbn [boundTo bh_repo bh_hashes bh_pos bh_fi];
    try discriminate Hrepo0; try (injection Hrepo0 as <-); rewrite ?Hrepo0, ?Hfi.
  all: try (pose proof (drop_index _ _ _ Hidx) as Hdrop; rewrite Hdrop;
            cbn [byHashStream]; rewrite Hres).
  all: try (pose proof (proj1 (index_Some _ _ _) Hidx) as [Hr _]).
  all: try match goal with
       | H : fileIter_Next ?f = _ |- _ =>
           pose proof (fileIter_Next_stream f) as Hs; rewrite H in Hs;
           cbn [fi_repoID fi_t fi_fi] in Hs
       end.
  - (* open iterator, a row *)
    split.
    + rewrite Hs. apply andThen_cons.
    + split; [eauto|]. split; [exact Hpos|]. intros fi0 [= <-].
      eapply fileIter_Next_of; [apply Hopen; reflexivity | exact Hnext].
  - (* open iterator, its end *)
    rewrite Hs, andThen_eof. split; [reflexivity|].
    split; [eauto|]. split; [exact Hpos|]. intros fi0 [=].
  - rewrite Hs. apply andThen_error. discriminate.
  - rewrite Hs. apply andThen_error. discriminate.
  - (* no hash left *)
    apply Z.leb_le in Hend. rewrite drop_ge by lia. reflexivity.
  - (* resolved, a row *)
    split.
    + rewrite Hs. apply andThen_cons.
    + split; [eauto|]. split; [lia|]. intros fi0 [= <-].
      eapply fileIter_Next_of; [|exact Hnext]. apply fileIterOf_opened.
  - (* resolved, an empty tree *)
    rewrite Hs, andThen_eof. split; [reflexivity|].
    split; [eauto|]. split; [lia|]. intros fi0 [=].
  - rewrite Hs. apply andThen_error. discriminate.
  - rewrite Hs. apply andThen_error. discriminate.
  - reflexivity.
  - (* not found: skipped *)
    split; [reflexivity|]. split; [eauto|]. split; [lia|]. intros fi0 [=].
  - reflexivity.
  - (* index out of range: excluded *)
    apply Z.leb_gt in Hend. 
    assert (Hsome : is_Some (index (bh_hashes i) (bh_pos i))).
    { destruct (lookup_lt_is_Some_2 (bh_hashes i) (Z.to_nat (bh_pos i))) as [x Hx]; [lia|].
      exists x. apply index_Some. split; [lia | exact Hx]. }
    rewrite Hidx in Hsome. destruct Hsome as [x Hx]. discriminate Hx.
Qed.

End ByHash.

Section IterateStream.
Context {S : Type} (body : S -> iteration S (result Row * S)).
Context (passes : S -> nat) (Inv : S -> Prop) (rem : S -> stream).

Lemma iterate_stream :
  (forall s s', body s = Continue s' -> (passes s' < passes s)%nat) ->
  (forall s, Inv s -> passStream body Inv rem s) ->
  forall s, Inv s ->
  match iterate body (Datatypes.S (passes s)) s with
  | Returns (Ok row, s') => rem s = (row :: fst (rem s'), snd (rem s')) /\ Inv s'
  | Returns (Err err, _) => rem s = ([], err)
  | _ => False
  end.
Proof.
  intros Hdec Hpass s.
  remember (passes s) as n eqn:Hn. revert s Hn.
  induction n as [n IH] using lt_wf_ind. intros s -> Hinv.
  specialize (Hpass s Hinv). unfold passStream in Hpass.
  destruct (body s) as [s'|[[row|err] s']|] eqn:Hb.
  - rewrite (iterate_passes_continue body passes s s' Hdec Hb).
    destruct Hpass as [Hrem Hinv']. rewrite <- Hrem.
    apply (IH (passes s')); [apply Hdec; exact Hb | reflexivity | exact Hinv'].
  - rewrite (iterate_return body _ s _ Hb). exact Hpass.
  - rewrite (iterate_return body _ s _ Hb). exact Hpass.
  - destruct Hpass.
Qed.

End IterateStream.

Section TreeEntry.
Context `{HM : HashMethods}.


Lemma treeEntryIter_continue_passes (i i' : treeEntryIter) :
  treeEntryIter_Next_body i = Continue i' ->
  (treeEntryIter_passes i' < treeEntryIter_passes i)%nat.
Proof.
  tree_entry_cases i; intros Hb; try discriminate Hb; injection Hb as <-;
    unfold treeEntryIter_passes; cbn [te_i te_fi default length]; rewrite ?Hfi, ?Htrees; 
    simpl; lia.
Qed.

Lemma treeEntryIter_body_stream (repoID : string) (i : treeEntryIter) :
  boundTo repoID (TreeEntryIter i) ->
  match treeEntryIter_Next_body i with
  | Continue i' =>
      treeEntryRemaining i' = treeEntryRemaining i /\ boundTo repoID (TreeEntryIter i')
  | Return (Ok row, i') =>
      treeEntryRemaining i =
      (row :: fst (treeEntryRemaining i'), snd (treeEntryRemaining i')) /\
      boundTo repoID (TreeEntryIter i')
  | Return (Err err, i') => treeEntryRemaining i = ([], err)
  | Panic => False
  end.
Proof.
  intros [<- [Hsome Hopen]]. unfold treeEntryRemaining.
  tree_entry_cases i; cbn [boundTo te_i te_fi te_repoID default from_option id]; rewrite ?Hfi.
  all: try match goal with
       | H : fileIter_Next ?f = _ |- _ =>
           pose proof (fileIter_Next_stream f) as Hs; rewrite H in Hs;
           cbn [fi_repoID fi_t fi_fi] in Hs
       end.
  all: cbn [treesStream].
  - split.
    + rewrite Hs. apply andThen_cons.
    + split; [reflexivity|]. split; [exact Hsome|]. intros fi0 [= <-].
      eapply fileIter_Next_of; [apply Hopen; reflexivity | exact Hnext].
  - rewrite Hs, andThen_eof. split; [reflexivity|].
    split; [reflexivity|]. split; [exact Hsome|]. intros fi0 [=].
  - rewrite Hs. apply andThen_error. discriminate.
  - rewrite Hs. apply andThen_error. discriminate.
  - reflexivity.
  - split.
    + rewrite Hs. apply andThen_cons.
    + split; [reflexivity|]. split; [eauto|]. intros fi0 [= <-].
      eapply fileIter_Next_of; [|exact Hnext]. apply fileIterOf_opened.
  - rewrite Hs, andThen_eof. split; [reflexivity|].
    split; [reflexivity|]. split; [eauto|]. intros fi0 [=].
  - rewrite Hs. apply andThen_error. discriminate.
  - rewrite Hs. apply andThen_error. discriminate.
  - reflexivity.
  - destruct Hsome as [x Hx]. discriminate Hx.
Qed.

End TreeEntry.

Section Scan.
Context `{HM : HashMethods}.

(** [Next] on a bound iterator returns: the head of the remaining stream,
    leaving its tail, or the error the stream ends with. *)
Lemma Next_stream (repoID : string) (i : RowRepoIter) :
  boundTo repoID i ->
  match Next i with
  | Returns (Ok row, i') =>
      remaining i = (row :: fst (remaining i'), snd (remaining i')) /\ boundTo repoID i'
  | Returns (Err err, _) => remaining i = ([], err)
  | _ => False
  end.
Proof.
  intros Hb. destruct i as [i|i]; cbn [Next remaining].
  - pose proof (iterate_stream treeEntryIter_Next_body treeEntryIter_passes
                  (fun i => boundTo repoID (TreeEntryIter i)) treeEntryRemaining
                  treeEntryIter_continue_passes
                  (treeEntryIter_body_stream repoID) i Hb) as H.
    unfold treeEntryIter_Next.
    destruct (iterate _ _ i) as [[[row|err] i']| |]; exact H.
  - pose proof (iterate_stream treeEntriesByHashIter_Next_body treeEntriesByHashIter_passes
                  (fun i => boundTo repoID (TreeEntriesByHashIter i)) byHashRemaining
                  treeEntriesByHashIter_continue_passes
                  (treeEntriesByHashIter_body_stream repoID) i Hb) as H.
    unfold treeEntriesByHashIter_Next.
    destruct (iterate _ _ i) as [[[row|err] i']| |]; exact H.
Qed.

Lemma drain_stream (repoID : string) (fuel : nat) (i : RowRepoIter) :
  boundTo repoID i -> (length (fst (remaining i)) < fuel)%nat ->
  drain fuel i = Returns (remaining i).
Proof.
  revert i. induction fuel as [|fuel IH]; intros i Hb Hlen; [lia|].
  pose proof (Next_stream repoID i Hb) as H. cbn [drain].
  destruct (Next i) as [[[row|err] i']| |]; try contradiction.
  - destruct H as [Hrem Hb']. rewrite Hrem in Hlen |- *. cbn [fst length] in Hlen.
    rewrite IH; [reflexivity | exact Hb' | lia].
  - rewrite H. reflexivity.
Qed.

End Scan.

Section IterateInvariant.
Context {S R : Type} (body : S -> iteration S R).
Context (Inv : S -> Prop) (Post : R -> Prop).

Lemma iterate_invariant :
  (forall s, Inv s ->
     match body s with
     | Continue s' => Inv s'
     | Return r => Post r
     | Panic => True
     end) ->
  forall fuel s, Inv s ->
  match iterate body fuel s with
  | Returns r => Post r
  | _ => True
  end.
Proof.
  intros Hbody. induction fuel as [|fuel IH]; intros s Hinv; simpl; [exact I|].
  specialize (Hbody s Hinv).
  destruct (body s) as [s'|r|]; [apply IH; exact Hbody | exact Hbody | exact I].
Qed.

End IterateInvariant.

Section Shapes.
Context `{HM : HashMethods}.

Lemma andThen_rows (P : Row -> Prop) (s next : stream) :
  Forall P (fst s) -> Forall P (fst next) -> Forall P (fst (andThen s next)).
Proof.
  intros Hs Hn. destruct s as [rows [| |msg]]; cbn; auto.
  apply Forall_app. split; assumption.
Qed.

Lemma filesStream_rows (repoID : string) (t : object.Tree) (files done : object.FileIter) :
  object.Files t = (done ++ files)%list ->
  Forall (rowShape repoID) (fst (filesStream repoID t files)).
Proof.
  revert done. induction files as [|[f|err] rest IH]; intros done Hfiles; cbn.
  - constructor.
  - constructor.
    + exists t, f. split; [|reflexivity]. rewrite Hfiles. apply in_or_app. right. left. reflexivity.
    + apply (IH (done ++ [Ok f])%list). rewrite <- app_assoc. exact Hfiles.
  - constructor.
Qed.

Lemma byHashStream_rows (repo : Repository) (hashes : list string) :
  Forall (rowShape (ID repo)) (fst (byHashStream repo hashes)).
Proof.
  induction hashes as [|h rest IH]; cbn; [constructor|].
  destruct (TreeObject repo (NewHash h)) as [tree|[| |msg]]; cbn; try constructor; try exact IH.
  apply andThen_rows; [|exact IH]. apply (filesStream_rows _ _ _ []). reflexivity.
Qed.

Lemma treesStream_rows (repoID : string) (trees : object.TreeIter) :
  Forall (rowShape repoID) (fst (treesStream repoID trees)).
Proof.
  induction trees as [|[tree|err] rest IH]; cbn; try constructor.
  apply andThen_rows; [|exact IH]. apply (filesStream_rows _ _ _ []). reflexivity.
Qed.

Lemma remaining_rows (repoID : string) (i : RowRepoIter) :
  boundTo repoID i -> Forall (rowShape repoID) (fst (remaining i)).
Proof.
  destruct i as [i|i]; cbn [boundTo remaining].
  - intros [<- [_ Hopen]]. unfold treeEntryRemaining.
    destruct (te_fi i) as [fi|]; [|apply treesStream_rows].
    destruct (Hopen fi eq_refl) as [Hid [done Hdone]].
    apply andThen_rows; [|apply treesStream_rows].
    rewrite Hid. apply (filesStream_rows _ _ _ done). exact Hdone.
  - intros [[repo [Hrepo <-]] [_ Hopen]]. unfold byHashRemaining. rewrite Hrepo.
    destruct (bh_fi i) as [fi|]; [|apply byHashStream_rows].
    destruct (Hopen fi eq_refl) as [Hid [done Hdone]].
    apply andThen_rows; [|apply byHashStream_rows].
    rewrite Hid. apply (filesStream_rows _ _ _ done). exact Hdone.
Qed.

Lemma NewIterator_bound (i i' : RowRepoIter) (repo : Repository) :
  NewIterator i repo = Ok i' -> boundTo (ID repo) i'.
Proof.
  destruct i as [i|i]; cbn [NewIterator].
  - unfold treeEntryIter_NewIterator. destruct (TreeObjects repo) as [iter|err]; [|discriminate].
    intros [= <-]. cbn. split; [reflexivity|]. split; [eauto|]. intros fi [=].
  - unfold treeEntriesByHashIter_NewIterator. intros [= <-]. cbn.
    split; [eauto|]. split; [lia|]. intros fi [=].
Qed.

Lemma treeEntriesByHashIter_Next_continue (i i' : treeEntriesByHashIter) :
  treeEntriesByHashIter_Next_body i = Continue i' ->
  treeEntriesByHashIter_Next i = treeEntriesByHashIter_Next i'.
Proof.
  apply iterate_passes_continue. exact treeEntriesByHashIter_continue_passes.
Qed.

Lemma treeEntriesByHashIter_Next_return
  (i : treeEntriesByHashIter) (r : result Row * treeEntriesByHashIter) :
  treeEntriesByHashIter_Next_body i = Return r ->
  treeEntriesByHashIter_Next i = Returns r.
Proof. apply iterate_return. Qed.

Lemma treeEntriesByHashIter_Next_ends (i : treeEntriesByHashIter) :
  treeEntriesByHashIter_Next i <> OutOfFuel.
Proof.
  apply (iterate_ends _ treeEntriesByHashIter_passes treeEntriesByHashIter_continue_passes). lia.
Qed.

Lemma treeEntryIter_Next_ends (i : treeEntryIter) :
  treeEntryIter_Next i <> OutOfFuel.
Proof.
  apply (iterate_ends _ treeEntryIter_passes treeEntryIter_continue_passes). lia.
Qed.

Lemma treeEntriesByHashIter_Next_hashes (i : treeEntriesByHashIter) :
  match treeEntriesByHashIter_Next i with
  | Returns (_, i') => bh_hashes i' = bh_hashes i /\ bh_repo i' = bh_repo i
  | _ => True
  end.
Proof.
  pose proof (iterate_invariant treeEntriesByHashIter_Next_body
                (fun s => bh_hashes s = bh_hashes i /\ bh_repo s = bh_repo i)
                (fun r => bh_hashes (snd r) = bh_hashes i /\ bh_repo (snd r) = bh_repo i)) as H.
  unfold treeEntriesByHashIter_Next.
  specialize (H ltac:(intros s [Hh Hr]; by_hash_cases s; cbn [snd bh_hashes bh_repo];
                      auto; split; congruence)
                (S (treeEntriesByHashIter_passes i)) i (conj eq_refl eq_refl)).
  destruct (iterate _ _ i) as [[r i']| |]; auto.
Qed.

End Shapes.

(* ===================================================================== *)
(** * Properties of the tree_entries scan                                 *)
(* ===================================================================== *)

Section TreeEntriesScan.
Context `{HM : HashMethods}.



(** C10. [NewIterator] of a by-hash iterator gives, for any repository, the
    iterator with the same hashes, position zero, that repository and no
    file iterator, whatever the position, repository and file iterator of
    the receiver; [Next] never changes the hashes. Drained, the new
    iterator gives the rows of the whole list of hashes in the repository. *)
Theorem treeEntriesByHashIter_NewIterator_fresh
  (i : treeEntriesByHashIter) (repo : Repository) :
  let fresh := mkTreeEntriesByHashIter (bh_hashes i) 0 (Some repo) None in
  treeEntriesByHashIter_NewIterator i repo = Ok fresh /\
  (forall j,
     bh_hashes j = bh_hashes i ->
     treeEntriesByHashIter_NewIterator j repo = treeEntriesByHashIter_NewIterator i repo) /\
  (forall r i',
     treeEntriesByHashIter_Next i = Returns (r, i') -> bh_hashes i' = bh_hashes i) /\
  (forall fuel,
     (length (fst (byHashStream repo (bh_hashes i))) < fuel)%nat ->
     drain fuel (TreeEntriesByHashIter fresh) = Returns (byHashStream repo (bh_hashes i))).
Proof.
  cbn zeta. split; [reflexivity|]. split; [|split].
  - intros j Hj. unfold treeEntriesByHashIter_NewIterator. rewrite Hj. reflexivity.
  - intros r i' Hnext. pose proof (treeEntriesByHashIter_Next_hashes i) as H.
    rewrite Hnext in H. apply H.
  - intros fuel Hfuel.
    rewrite (drain_stream (ID repo)).
    + reflexivity.
    + cbn. split; [eauto|]. split; [lia|]. intros fi [=].
    + exact Hfuel.
Qed.

End TreeEntriesScan.

Section TreeEntriesTable.
Context `{HM : HashMethods} `{TE : TableEnv}.

(** When the text values of the selectors cannot be had, no scan is
    built: the error is returned. *)
Lemma treeEntriesRowRepoIter_textValues_error (sel : selectors) (err : error) :
  selectorsAt sel "tree_hash" <> [] ->
  textValues sel "tree_hash" = Err err ->
  treeEntriesRowRepoIter sel = Err err.
Proof.
  intros Hne Herr. unfold treeEntriesRowRepoIter.
  destruct (selectorsAt sel "tree_hash"); [congruence|]. cbn. rewrite Herr. reflexivity.
Qed.


(** C9. [TreeEntriesSchema] has the five columns repository_id, tree_hash,
    blob_hash, tree_entry_mode and tree_entry_name, in that order, each not
    nullable and with the table's name as its source; the table answers
    with that name and that schema; and the columns it asks selectors for
    are the single column tree_hash. *)
Theorem TreeEntriesSchema_five_columns :
  map sql.Name TreeEntriesSchema =
    ["repository_id"; "tree_hash"; "blob_hash"; "tree_entry_mode"; "tree_entry_name"] /\
  length TreeEntriesSchema = 5%nat /\
  (forall col, In col TreeEntriesSchema ->
     Nullable col = false /\ Source col = TreeEntriesTableName) /\
  tableName treeEntriesTable = TreeEntriesTableName /\
  tableSchema treeEntriesTable = TreeEntriesSchema /\
  treeEntriesIndexableColumns = ["tree_hash"] /\
  (forall ctx projection filters,
     WithProjectAndFilters ctx projection filters =
     match
       rowIterWithSelectors (snd (Span ctx "gitbase.TreeEntriesTable"))
         TreeEntriesSchema TreeEntriesTableName filters treeEntriesIndexableColumns
         treeEntriesRowRepoIter
     with
     | Err err => Err err
     | Ok iter => Ok (NewSpanIter "gitbase.TreeEntriesTable" iter)
     end).
Proof.
  split; [reflexivity|]. split; [reflexivity|]. split.
  { intros col Hcol.
    destruct Hcol as [<- | [<- | [<- | [<- | [<- | []]]]]]; split; reflexivity. }
  repeat split.
Qed.

(** The schema-source rule of the analyzer has nothing to say against the
    table. *)
Lemma treeEntriesTable_validateSchema : validateSchema treeEntriesTable = None.
Proof.
  apply schemaColumns_pass. intros col Hcol.
  destruct Hcol as [<- | [<- | [<- | [<- | [<- | []]]]]]; reflexivity.
Qed.

End TreeEntriesTable.

(** ** The mode column *)

Lemma digit_value (d : Z) :
  0 <= d < 10 -> Z.of_N (N_of_ascii (digit d)) - 48 = d.
Proof.
  intros Hd. unfold digit. replace (d <? 10) with true by (symmetry; apply Z.ltb_lt; lia).
  rewrite N_ascii_embedding.
  - lia.
  - apply N2Z.inj_lt. rewrite Z2N.id by lia. simpl. lia.
Qed.

Lemma formatBits_value (rounds : nat) (u base : Z) (acc : string) :
  2 <= base <= 10 -> 0 <= u < base ^ Z.of_nat rounds ->
  digitsValue base (formatBits rounds u base acc) =
  u * base ^ Z.of_nat (String.length acc) + digitsValue base acc.
Proof.
  intros Hbase. revert u acc. induction rounds as [|rounds IH]; intros u acc Hu.
  - simpl in *. assert (u = 0) by lia. subst u. lia.
  - cbn [formatBits]. destruct (u <? base) eqn:Hlt.
    + apply Z.ltb_lt in Hlt. cbn [digitsValue]. rewrite digit_value by lia. reflexivity.
    + apply Z.ltb_ge in Hlt. rewrite IH.
      * cbn [digitsValue String.length]. 
        rewrite digit_value by (pose proof (Z.mod_pos_bound u base); lia).
        rewrite Nat2Z.inj_succ, Z.pow_succ_r by lia.
        pose proof (Z.div_mod u base ltac:(lia)) as Hdm. nia.
      * split; [apply Z.div_pos; lia|].
        apply Z.div_lt_upper_bound; [lia|].
        rewrite Nat2Z.inj_succ, Z.pow_succ_r in Hu by lia. lia.
Qed.

(** A file mode is an unsigned 32-bit number: its conversion to [int64]
    changes nothing, and the base-8 string [fileToRow] writes for it reads
    back as the mode. *)
Lemma FormatInt_mode_octal (mode : Z) :
  0 <= mode < 2 ^ 32 ->
  int64 mode = mode /\ digitsValue 8 (FormatInt (int64 mode) 8) = mode.
Proof.
  intros Hm.
  assert (Hint : int64 mode = mode).
  { unfold int64. rewrite Z.mod_small; lia. }
  split; [exact Hint|]. rewrite Hint. unfold FormatInt.
  replace (mode <? 0) with false by (symmetry; apply Z.ltb_ge; lia).
  rewrite formatBits_value.
  - cbn. lia.
  - lia.
  - split; [lia|]. apply Z.lt_trans with (2 ^ 32); [lia|]. reflexivity.
Qed.

(** ** The scan on the small dataset *)

Section ScanExamples.
Existing Instance demo.hashMethods.
Existing Instance demo.tableEnv.



(** A repository that lacks the one hash asked for: no row, no error. *)
Example scan_by_hash_missing_tree :
  drain 1 (TreeEntriesByHashIter (mkTreeEntriesByHashIter ["T1"] 0 (Some demo.repoB) None))
  = Returns ([], EOF).
Proof. reflexivity. Qed.

(** T1 is skipped in [repoB]; reading T3 fails, and that ends the stream
    before T2 is looked at. *)
Example scan_by_hash_read_error :
  drain 1 (TreeEntriesByHashIter demo.byHashB) = Returns ([], ErrOther "short read").
Proof. reflexivity. Qed.

(** The traversal of T2 fails after its first file. *)
Example scan_by_hash_traversal_error :
  drain 4 (TreeEntriesByHashIter demo.byHashA)
  = Returns
      ([ [VText "repoA"; VText "T1"; VText "b1"; VText "100644"; VText "a.txt"];
         [VText "repoA"; VText "T1"; VText "b2"; VText "100755"; VText "lib/b.go"];
         [VText "repoA"; VText "T2"; VText "b3"; VText "100644"; VText "c.md"] ],
       ErrOther "corrupt blob").
Proof. reflexivity. Qed.

Example scan_full_traversal :
  match NewIterator (TreeEntryIter new_treeEntryIter) demo.repoB with
  | Ok i => drain 2 i
  | Err _ => Panics
  end
  = Returns ([ [VText "repoB"; VText "T2"; VText "b3"; VText "100644"; VText "c.md"] ],
             ErrOther "corrupt blob").
Proof. reflexivity. Qed.

(** The iterator the table hands over is not bound yet: [Next] on it
    dereferences nil. *)
Example Next_unbound_panics :
  Next (TreeEntryIter new_treeEntryIter) = Panics /\
  Next (TreeEntriesByHashIter (mkTreeEntriesByHashIter ["T1"] 0 None None)) = Panics.
Proof. split; reflexivity. Qed.

Example WithProjectAndFilters_no_filter :
  WithProjectAndFilters demo.ctx [] [] = Ok (TreeEntryIter new_treeEntryIter).
Proof. reflexivity. Qed.

Example WithProjectAndFilters_tree_hash_filter :
  WithProjectAndFilters demo.ctx [] [Literal (VText "T1"); Literal (VText "T2")]
  = Ok (TreeEntriesByHashIter (mkTreeEntriesByHashIter ["T1"; "T2"] 0 None None)).
Proof. reflexivity. Qed.

Example WithProjectAndFilters_not_text :
  WithProjectAndFilters demo.ctx [] [Literal (VInt 7)] = Err (ErrOther "not a text value").
Proof. reflexivity. Qed.

Example FormatInt_modes :
  FormatInt (int64 33188) 8 = "100644" /\
  FormatInt (int64 16384) 8 = "40000" /\
  FormatInt (int64 0) 8 = "0" /\
  FormatInt (-255) 16 = "-ff".
Proof. repeat split; reflexivity. Qed.

End ScanExamples.

(* ===================================================================== *)
(** * Further properties of the scan                                      *)
(* ===================================================================== *)

Section ScanSafety.
Context `{HM : HashMethods}.

Lemma fileIter_Next_of_bound (repoID : string) (fi : fileIter) :
  fileIterOf repoID fi -> fileIterOf repoID (snd (fileIter_Next fi)).
Proof.
  intros H. destruct (fileIter_Next fi) as [r fi'] eqn:Hn.
  exact (fileIter_Next_of repoID fi fi' r H Hn).
Qed.

Lemma treeEntriesByHashIter_body_bound (repoID : string) (i : treeEntriesByHashIter) :
  boundTo repoID (TreeEntriesByHashIter i) ->
  match treeEntriesByHashIter_Next_body i with
  | Continue i' => boundTo repoID (TreeEntriesByHashIter i')
  | Return r => boundTo repoID (TreeEntriesByHashIter (snd r))
  | Panic => True
  end.
Proof.
  intros Hb. pose proof (treeEntriesByHashIter_body_stream repoID i Hb) as Hs.
  destruct Hb as [[repo0 [Hrepo0 <-]] [Hpos Hopen]].
  revert Hs. by_hash_cases i; cbn [snd boundTo bh_repo bh_hashes bh_pos bh_fi];
    try discriminate Hrepo0; try (injection Hrepo0 as <-); intros Hs;
    try exact (proj2 Hs); try exact I.
  all: try (pose proof (proj1 (index_Some _ _ _) Hidx) as [Hr _]).
  all: (split; [eauto|]); (split; [lia|]).
  all: try (intros fi0 Hfi0; congruence).
  all: intros fi0 [= <-].
  all: match goal with
       | H : fileIter_Next ?f = (?r, ?f') |- fileIterOf _ ?f' =>
           apply (fileIter_Next_of _ f f' r); [|exact H]
       end.
  all: first [ apply Hopen; reflexivity | apply fileIterOf_opened ].
Qed.

Lemma treeEntryIter_body_bound (repoID : string) (i : treeEntryIter) :
  boundTo repoID (TreeEntryIter i) ->
  match treeEntryIter_Next_body i with
  | Continue i' => boundTo repoID (TreeEntryIter i')
  | Return r => boundTo repoID (TreeEntryIter (snd r))
  | Panic => True
  end.
Proof.
  intros [<- [Hsome Hopen]].
  tree_entry_cases i; cbn [snd boundTo te_i te_fi te_repoID]; try exact I.
  all: (split; [reflexivity|]); (split; [eauto|]).
  all: try (intros fi0 Hfi0; congruence).
  all: intros fi0 [= <-].
  all: match goal with
       | H : fileIter_Next ?f = (?r, ?f') |- fileIterOf _ ?f' =>
           apply (fileIter_Next_of _ f f' r); [|exact H]
       end.
  all: first [ apply Hopen; reflexivity | apply fileIterOf_opened ].
Qed.

Lemma Next_keeps_bound (repoID : string) (i : RowRepoIter) :
  boundTo repoID i ->
  match Next i with
  | Returns (_, i') => boundTo repoID i'
  | _ => True
  end.
Proof.
  intros Hb. destruct i as [i|i]; cbn [Next].
  - pose proof (iterate_invariant treeEntryIter_Next_body
                  (fun s => boundTo repoID (TreeEntryIter s))
                  (fun r => boundTo repoID (TreeEntryIter (snd r)))
                  (treeEntryIter_body_bound repoID)
                  (S (treeEntryIter_passes i)) i Hb) as H.
    unfold treeEntryIter_Next. destruct (iterate _ _ i) as [[r i']| |]; auto.
  - pose proof (iterate_invariant treeEntriesByHashIter_Next_body
                  (fun s => boundTo repoID (TreeEntriesByHashIter s))
                  (fun r => boundTo repoID (TreeEntriesByHashIter (snd r)))
                  (treeEntriesByHashIter_body_bound repoID)
                  (S (treeEntriesByHashIter_passes i)) i Hb) as H.
    unfold treeEntriesByHashIter_Next. destruct (iterate _ _ i) as [[r i']| |]; auto.
Qed.

(** X1. [Next] on an iterator that [NewIterator] made, or that [Next] has
    left, returns: the loop ends, no slice index is out of range and no nil
    pointer is followed. The iterator it leaves is again such an iterator,
    after a row and after an error alike. *)
Theorem Next_of_bound_iterator_returns (repoID : string) (i : RowRepoIter) :
  boundTo repoID i ->
  exists r i', Next i = Returns (r, i') /\ boundTo repoID i'.
Proof.
  intros Hb.
  pose proof (Next_stream repoID i Hb) as Hs.
  pose proof (Next_keeps_bound repoID i Hb) as Hk.
  destruct (Next i) as [[r i']| |]; [|destruct Hs|destruct Hs].
  exists r, i'. split; [reflexivity | exact Hk].
Qed.

End ScanSafety.

Section ScanEdges.
Context `{HM : HashMethods}.

Lemma treeEntriesByHashIter_exhausted (hashes : list string) (pos : Z)
  (repo : option Repository) :
  Z.of_nat (length hashes) <= pos ->
  treeEntriesByHashIter_Next (mkTreeEntriesByHashIter hashes pos repo None)
  = Returns (Err EOF, mkTreeEntriesByHashIter hashes pos repo None).
Proof.
  intros Hpos. apply treeEntriesByHashIter_Next_return.
  unfold treeEntriesByHashIter_Next_body. cbn [bh_fi bh_hashes bh_pos].
  replace (Z.of_nat (length hashes) <=? pos) with true by (symmetry; apply Z.leb_le; lia).
  reflexivity.
Qed.

Lemma treeEntriesByHashIter_missing_from (repo : Repository) (hashes : list string) (n : nat) :
  Forall (fun h => TreeObject repo (NewHash h) = Err ErrObjectNotFound) hashes ->
  (n <= length hashes)%nat ->
  treeEntriesByHashIter_Next
    (mkTreeEntriesByHashIter hashes (Z.of_nat (length hashes - n)) (Some repo) None)
  = Returns (Err EOF,
             mkTreeEntriesByHashIter hashes (Z.of_nat (length hashes)) (Some repo) None).
Proof.
  intros Hall. induction n as [|n IH]; intros Hn.
  - rewrite Nat.sub_0_r. apply treeEntriesByHashIter_exhausted. lia.
  - destruct (lookup_lt_is_Some_2 hashes (length hashes - S n)) as [h Hh]; [lia|].
    assert (Hres : TreeObject repo (NewHash h) = Err ErrObjectNotFound).
    { rewrite Forall_forall in Hall. apply Hall.
      eapply list_elem_of_lookup_2. exact Hh. }
    rewrite <- IH by lia.
    replace (Z.of_nat (length hashes - n)) with (Z.of_nat (length hashes - S n) + 1) by lia.
    apply treeEntriesByHashIter_Next_continue.
    unfold treeEntriesByHashIter_Next_body. cbn [bh_fi bh_hashes bh_pos bh_repo].
    replace (Z.of_nat (length hashes) <=? Z.of_nat (length hashes - S n)) with false
      by (symmetry; apply Z.leb_gt; lia).
    assert (Hidx : index hashes (Z.of_nat (length hashes - S n)) = Some h).
    { apply index_Some. split; [lia|]. rewrite Nat2Z.id. exact Hh. }
    rewrite Hidx, Hres. reflexivity.
Qed.

(** X2. In a repository where none of the hashes asked for is found, the
    first [Next] of the by-hash iterator returns [io.EOF]: no row and no
    other error, with every hash tried. *)
Theorem treeEntriesByHashIter_Next_all_missing (repo : Repository) (hashes : list string) :
  Forall (fun h => TreeObject repo (NewHash h) = Err ErrObjectNotFound) hashes ->
  treeEntriesByHashIter_Next (mkTreeEntriesByHashIter hashes 0 (Some repo) None)
  = Returns (Err EOF,
             mkTreeEntriesByHashIter hashes (Z.of_nat (length hashes)) (Some repo) None).
Proof.
  intros Hall.
  pose proof (treeEntriesByHashIter_missing_from repo hashes (length hashes) Hall (le_n _)) as H.
  rewrite Nat.sub_diag in H. exact H.
Qed.

Lemma treeEntryIter_Next_continue (i i' : treeEntryIter) :
  treeEntryIter_Next_body i = Continue i' ->
  treeEntryIter_Next i = treeEntryIter_Next i'.
Proof.
  apply iterate_passes_continue. exact treeEntryIter_continue_passes.
Qed.

Lemma treeEntryIter_Next_return (i : treeEntryIter) (r : result Row * treeEntryIter) :
  treeEntryIter_Next_body i = Return r -> treeEntryIter_Next i = Returns r.
Proof. apply iterate_return. Qed.

(** X3. One [Next] of the full-traversal iterator with no file iterator
    open, by what its tree iterator gives next. At its end, or on an error,
    that error is returned ([io.EOF] included). A tree whose traversal is at
    once at its end is passed over: [Next] is [Next] of the iterator past
    that tree. Otherwise the first file's row is returned, or the error of
    the traversal. *)
Theorem treeEntryIter_Next_by_cases (trees : object.TreeIter) (repoID : string) :
  let at_trees (rest : object.TreeIter) (fi : option fileIter) :=
    mkTreeEntryIter (Some rest) fi repoID in
  let i := at_trees trees None in
  match trees with
  | [] => treeEntryIter_Next i = Returns (Err EOF, at_trees [] None)
  | Err err :: rest => treeEntryIter_Next i = Returns (Err err, at_trees rest None)
  | Ok tree :: rest =>
      match object.Files tree with
      | [] | Err EOF :: _ => treeEntryIter_Next i = treeEntryIter_Next (at_trees rest None)
      | Err err :: files =>
          treeEntryIter_Next i =
          Returns (Err err, at_trees rest (Some (mkFileIter repoID tree files)))
      | Ok f :: files =>
          treeEntryIter_Next i =
          Returns (Ok (fileToRow repoID tree f),
                   at_trees rest (Some (mkFileIter repoID tree files)))
      end
  end.
Proof.
  cbn zeta. destruct trees as [|[tree|err] rest].
  - apply treeEntryIter_Next_return. reflexivity.
  - destruct (object.Files tree) as [|[f|[| |msg]] files] eqn:Hfiles.
    + apply treeEntryIter_Next_continue. unfold treeEntryIter_Next_body, fileIter_Next.
      cbn. rewrite Hfiles. reflexivity.
    + apply treeEntryIter_Next_return. unfold treeEntryIter_Next_body, fileIter_Next.
      cbn. rewrite Hfiles. reflexivity.
    + apply treeEntryIter_Next_continue. unfold treeEntryIter_Next_body, fileIter_Next.
      cbn. rewrite Hfiles. reflexivity.
    + apply treeEntryIter_Next_return. unfold treeEntryIter_Next_body, fileIter_Next.
      cbn. rewrite Hfiles. reflexivity.
    + apply treeEntryIter_Next_return. unfold treeEntryIter_Next_body, fileIter_Next.
      cbn. rewrite Hfiles. reflexivity.
  - apply treeEntryIter_Next_return. reflexivity.
Qed.

(** X4. The iterators as the table hands them over, before [NewIterator]
    has bound them to a repository: [Next] on the full-traversal one
    panics (its tree iterator is nil), and [Next] on the by-hash one panics
    as soon as a hash is left to resolve (its repository is nil); with no
    hash left it returns [io.EOF]. *)
Theorem Next_before_NewIterator (hashes : list string) (pos : Z) (repoID : string) :
  treeEntryIter_Next (mkTreeEntryIter None None repoID) = Panics /\
  treeEntriesByHashIter_Next (mkTreeEntriesByHashIter hashes pos None None) =
  if Z.of_nat (length hashes) <=? pos
  then Returns (Err EOF, mkTreeEntriesByHashIter hashes pos None None)
  else Panics.
Proof.
  split; [reflexivity|].
  destruct (Z.of_nat (length hashes) <=? pos) eqn:Hend.
  - apply treeEntriesByHashIter_exhausted. apply Z.leb_le. exact Hend.
  - unfold treeEntriesByHashIter_Next. apply iterate_panic.
    unfold treeEntriesByHashIter_Next_body. cbn [bh_fi bh_hashes bh_pos bh_repo].
    rewrite Hend. destruct (index hashes pos); reflexivity.
Qed.

End ScanEdges.

Section ScanStreams.
Context `{HM : HashMethods}.

(** A drain that ended gave the whole remaining stream. *)
Lemma drain_ended (repoID : string) (fuel : nat) (i : RowRepoIter) :
  boundTo repoID i -> drain fuel i <> OutOfFuel ->
  drain fuel i = Returns (remaining i) /\ (length (fst (remaining i)) < fuel)%nat.
Proof.
  revert i. induction fuel as [|fuel IH]; intros i Hb Hend; [destruct Hend; reflexivity|].
  pose proof (Next_stream repoID i Hb) as H. cbn [drain] in *.
  destruct (Next i) as [[[row|err] i']| |]; try contradiction.
  - destruct H as [Hrem Hb'].
    destruct (IH i' Hb') as [Hd Hlen].
    { intros Hout. rewrite Hout in Hend. apply Hend. reflexivity. }
    rewrite Hd, Hrem. cbn [fst snd length]. split; [reflexivity | lia].
  - rewrite H. cbn. split; [reflexivity | lia].
Qed.

Lemma byHashFor_bound (repo : Repository) (hashes : list string) :
  boundTo (ID repo) (byHashFor repo hashes).
Proof. cbn. split; [eauto|]. split; [lia|]. intros fi [=]. Qed.

Lemma byHashFor_remaining (repo : Repository) (hashes : list string) :
  remaining (byHashFor repo hashes) = byHashStream repo hashes.
Proof. reflexivity. Qed.

Lemma byHashFor_drain (repo : Repository) (hashes : list string) (fuel : nat) (s : stream) :
  drain fuel (byHashFor repo hashes) = Returns s -> s = byHashStream repo hashes.
Proof.
  intros Hd.
  destruct (drain_ended (ID repo) fuel _ (byHashFor_bound repo hashes)) as [Hs _].
  { rewrite Hd. discriminate. }
  rewrite Hd in Hs. injection Hs as ->. apply byHashFor_remaining.
Qed.

Lemma byHashStream_without_missing (repo : Repository) (hashes : list string) :
  byHashStream repo (List.filter (fun h => negb (notFoundIn repo h)) hashes)
  = byHashStream repo hashes.
Proof.
  induction hashes as [|h rest IH]; [reflexivity|].
  cbn [List.filter]. destruct (notFoundIn repo h) eqn:Hnf; cbn [negb];
    unfold notFoundIn in Hnf; cbn [byHashStream];
    destruct (TreeObject repo (NewHash h)) as [tree|[| |msg]]; try discriminate Hnf;
    rewrite ?IH; reflexivity.
Qed.

(** X5. Hashes that are not found in the repository leave no trace in the
    scan: draining the by-hash iterator over a list of hashes gives the rows
    and the final error that draining it over the list without its
    not-found hashes gives. *)
Theorem scan_ignores_missing_hashes (repo : Repository) (hashes : list string) (fuel : nat) :
  drain fuel (byHashFor repo hashes) <> OutOfFuel ->
  drain fuel (byHashFor repo (List.filter (fun h => negb (notFoundIn repo h)) hashes))
  = drain fuel (byHashFor repo hashes).
Proof.
  intros Hend.
  destruct (drain_ended (ID repo) fuel _ (byHashFor_bound repo hashes) Hend) as [Hd Hlen].
  rewrite Hd. rewrite byHashFor_remaining in *.
  rewrite (drain_stream (ID repo)).
  - rewrite byHashFor_remaining, byHashStream_without_missing. reflexivity.
  - apply byHashFor_bound.
  - rewrite byHashFor_remaining, byHashStream_without_missing. exact Hlen.
Qed.

Lemma andThen_assoc (a b c : stream) :
  andThen (andThen a b) c = andThen a (andThen b c).
Proof.
  destruct a as [ra [| |ma]], b as [rb [| |mb]], c as [rc ec]; cbn;
    rewrite ?app_assoc; reflexivity.
Qed.

Lemma byHashStream_app (repo : Repository) (first second : list string) :
  Forall (fun h => TreeObject repo (NewHash h) <> Err EOF) first ->
  byHashStream repo (first ++ second)
  = andThen (byHashStream repo first) (byHashStream repo second).
Proof.
  induction 1 as [|h rest Hh Hrest IH]; cbn [app byHashStream].
  - rewrite andThen_eof. reflexivity.
  - destruct (TreeObject repo (NewHash h)) as [tree|[| |msg]] eqn:Hres.
    + rewrite IH, andThen_assoc. reflexivity.
    + congruence.
    + exact IH.
    + reflexivity.
Qed.

(** X6. Scanning a list of hashes followed by another is scanning the
    first, then, if that ended with [io.EOF], the second, as long as the
    object store reports no [io.EOF] of its own when it resolves a hash of
    the first list: rows come in the order of the hashes, and a failure in
    the first list ends the scan before the second is looked at. *)
Theorem scan_of_appended_hashes
  (repo : Repository) (first second : list string) (fuel : nat) (s1 s2 : stream) :
  Forall (fun h => TreeObject repo (NewHash h) <> Err EOF) first ->
  drain fuel (byHashFor repo first) = Returns s1 ->
  drain fuel (byHashFor repo second) = Returns s2 ->
  drain (fuel + fuel) (byHashFor repo (first ++ second)) = Returns (andThen s1 s2).
Proof.
  intros Hstore H1 H2.
  destruct (drain_ended (ID repo) fuel _ (byHashFor_bound repo first)) as [_ Hl1];
    [rewrite H1; discriminate|].
  destruct (drain_ended (ID repo) fuel _ (byHashFor_bound repo second)) as [_ Hl2];
    [rewrite H2; discriminate|].
  apply byHashFor_drain in H1, H2. subst s1 s2.
  rewrite byHashFor_remaining in Hl1, Hl2.
  rewrite (drain_stream (ID repo)).
  - rewrite byHashFor_remaining, byHashStream_app by exact Hstore. reflexivity.
  - apply byHashFor_bound.
  - rewrite byHashFor_remaining, byHashStream_app by exact Hstore.
    destruct (byHashStream repo first) as [r1 [| |m1]], (byHashStream repo second) as [r2 e2];
      cbn in *; rewrite ?length_app; lia.
Qed.

Lemma byHashStream_asked (repo : Repository) (hashes : list string) :
  Forall (rowOfAskedTree repo hashes) (fst (byHashStream repo hashes)).
Proof.
  induction hashes as [|h rest IH]; cbn [byHashStream]; [constructor|].
  assert (Hrest : Forall (rowOfAskedTree repo (h :: rest)) (fst (byHashStream repo rest))).
  { eapply Forall_impl; [exact IH|]. intros row (h' & t & f & Hin & Hres & Hf & ->).
    exists h', t, f. split; [right; exact Hin|]. auto. }
  destruct (TreeObject repo (NewHash h)) as [tree|[| |msg]] eqn:Hres;
    try exact Hrest; try constructor.
  apply andThen_rows; [|exact Hrest].
  assert (Hfiles : forall files done,
             object.Files tree = (done ++ files)%list ->
             Forall (rowOfAskedTree repo (h :: rest)) (fst (filesStream (ID repo) tree files))).
  { induction files as [|[f|err] files IHf]; intros done Hd; cbn; constructor.
    - exists h, tree, f. split; [left; reflexivity|]. split; [exact Hres|].
      split; [|reflexivity]. rewrite Hd. apply in_or_app. right. left. reflexivity.
    - apply (IHf (done ++ [Ok f])%list). rewrite <- app_assoc. exact Hd. }
  apply (Hfiles _ []). reflexivity.
Qed.

(** X7. The by-hash scan returns rows of trees that were asked for only:
    every row of a drained by-hash iterator is the row of a file of a tree
    that one of its hashes resolves to in its repository. *)
Theorem scan_by_hash_rows_were_asked_for
  (repo : Repository) (hashes : list string) (fuel : nat) (rows : list Row) (err : error) :
  drain fuel (byHashFor repo hashes) = Returns (rows, err) ->
  forall row, In row rows -> rowOfAskedTree repo hashes row.
Proof.
  intros Hd row Hrow. apply byHashFor_drain in Hd.
  pose proof (byHashStream_asked repo hashes) as Hall. rewrite <- Hd in Hall.
  cbn [fst] in Hall. rewrite Forall_forall in Hall. apply Hall.
  apply list_elem_of_In. exact Hrow.
Qed.

Lemma byHashStream_as_trees (repo : Repository) (hashes : list string) (trees : list object.Tree) :
  Forall2 (fun h t => TreeObject repo (NewHash h) = Ok t) hashes trees ->
  byHashStream repo hashes = treesStream (ID repo) (map Ok trees).
Proof.
  induction 1 as [|h t hashes trees Hres Hrest IH]; [reflexivity|].
  cbn [byHashStream map treesStream]. rewrite Hres, IH. reflexivity.
Qed.

(** X8. The two scans agree where they look at the same trees: when the
    repository's tree iterator gives the trees the hashes resolve to, in
    the same order and without an error, draining the full-traversal
    iterator and draining the by-hash iterator give the same rows and the
    same final error. *)
Theorem scan_paths_agree
  (repo : Repository) (hashes : list string) (trees : list object.Tree) (fuel : nat) (i : RowRepoIter) :
  TreeObjects repo = Ok (map Ok trees) ->
  Forall2 (fun h t => TreeObject repo (NewHash h) = Ok t) hashes trees ->
  NewIterator (TreeEntryIter new_treeEntryIter) repo = Ok i ->
  drain fuel i <> OutOfFuel ->
  drain fuel (byHashFor repo hashes) = drain fuel i.
Proof.
  intros Htrees Hres Hnew Hend.
  pose proof (NewIterator_bound _ _ _ Hnew) as Hb.
  destruct (drain_ended (ID repo) fuel i Hb Hend) as [Hd Hlen].
  cbn in Hnew. unfold treeEntryIter_NewIterator in Hnew. rewrite Htrees in Hnew.
  injection Hnew as <-.
  rewrite Hd.
  match goal with
  | |- _ = Returns (remaining ?full) =>
      assert (Hrem : remaining (byHashFor repo hashes) = remaining full)
  end.
  { rewrite byHashFor_remaining. apply byHashStream_as_trees. exact Hres. }
  rewrite <- Hrem. apply (drain_stream (ID repo)).
  - apply byHashFor_bound.
  - rewrite Hrem. exact Hlen.
Qed.

End ScanStreams.

Section RowsAndSchema.
Context `{HM : HashMethods} `{TE : TableEnv}.

(** X9. Every row [Next] returns fits [TreeEntriesSchema]: it has a value
    for each of the five columns, each a text value as the column
    declares, and none is NULL. *)
Theorem Next_row_fits_schema (repoID : string) (i i' : RowRepoIter) (row : Row) :
  boundTo repoID i ->
  Next i = Returns (Ok row, i') ->
  rowFits row TreeEntriesSchema.
Proof.
  intros Hb Hnext.
  pose proof (Next_stream repoID i Hb) as Hs. rewrite Hnext in Hs.
  destruct Hs as [Hrem _].
  pose proof (remaining_rows repoID i Hb) as Hrows. rewrite Hrem in Hrows.
  cbn [fst] in Hrows. apply Forall_cons in Hrows. destruct Hrows as [Hshape _].
  destruct Hshape as (t & f & _ & ->).
  unfold rowFits, TreeEntriesSchema.
  repeat (constructor; [split; [exact I | discriminate]|]). constructor.
Qed.

End RowsAndSchema.

Section ModeColumn.
Context `{HM : HashMethods}.

Lemma digit_octal (d : Z) : 0 <= d < 8 -> isOctalDigit (digit d).
Proof.
  intros Hd. unfold isOctalDigit, digit.
  replace (d <? 10) with true by (symmetry; apply Z.ltb_lt; lia).
  rewrite N_ascii_embedding; [lia|].
  apply N2Z.inj_lt. rewrite Z2N.id by lia. simpl. lia.
Qed.

Lemma formatBits_octal (rounds : nat) (u : Z) (acc : string) :
  0 <= u -> allChars isOctalDigit acc ->
  allChars isOctalDigit (formatBits rounds u 8 acc).
Proof.
  revert u acc. induction rounds as [|rounds IH]; intros u acc Hu Hacc; [exact Hacc|].
  cbn [formatBits]. destruct (u <? 8) eqn:Hlt.
  - apply Z.ltb_lt in Hlt. split; [apply digit_octal; lia | exact Hacc].
  - apply IH.
    + apply Z.div_pos; lia.
    + split; [|exact Hacc]. apply digit_octal. apply Z.mod_pos_bound. lia.
Qed.

Lemma formatBits_not_empty (rounds : nat) (u base : Z) (acc : string) :
  (0 < rounds)%nat \/ acc <> EmptyString ->
  formatBits rounds u base acc <> EmptyString.
Proof.
  revert u acc. induction rounds as [|rounds IH]; intros u acc H.
  - destruct H as [H|H]; [lia | exact H].
  - cbn [formatBits]. destruct (u <? base); [discriminate|].
    apply IH. right. discriminate.
Qed.

(** X10. The mode column of a row, for a file whose mode is an unsigned
    32-bit number: a text that is not empty, made of octal digits only,
    that reads in base 8 as the mode. So two files have the same text
    there only when they have the same mode. *)
Theorem fileToRow_mode_column (repoID : string) (t : object.Tree) (f : object.File) :
  0 <= object.Mode f < 2 ^ 32 ->
  exists s,
    fileToRow repoID t f !! 3%nat = Some (VText s) /\
    s <> EmptyString /\
    allChars isOctalDigit s /\
    digitsValue 8 s = object.Mode f.
Proof.
  intros Hm. exists (FormatInt (int64 (object.Mode f)) 8).
  destruct (FormatInt_mode_octal (object.Mode f) Hm) as [Hint Hvalue].
  split; [reflexivity|].
  assert (Hformat : FormatInt (int64 (object.Mode f)) 8
                    = formatBits 64 (object.Mode f) 8 EmptyString).
  { rewrite Hint. unfold FormatInt.
    replace (object.Mode f <? 0) with false by (symmetry; apply Z.ltb_ge; lia).
    reflexivity. }
  split; [|split; [|exact Hvalue]]; rewrite Hformat.
  - apply formatBits_not_empty. left. lia.
  - apply formatBits_octal; [lia | exact I].
Qed.

End ModeColumn.

Section TableAndRules.
Context `{EM : ExpressionMethods} `{TM : TypeMethods} `{NM : NodeMethods} `{TE : TableEnv}.

(** X11. The tree_entries table passes every rule of
    [DefaultValidationRules], and so does an alias of it that reports
    itself resolved. *)
Theorem treeEntriesTable_passes_default_rules (ctx : Context) (n : Node) :
  isTreeEntriesTable n ->
  (forall rule, In rule DefaultValidationRules -> Apply rule ctx n = None) /\
  (forall name,
     Resolved (TableAlias n name) = true ->
     forall rule, In rule DefaultValidationRules -> Apply rule ctx (TableAlias n name) = None).
Proof.
  intros [[id ->] [Hres Htable]]. split.
  - intros rule Hrule. unfold DefaultValidationRules in Hrule.
    destruct Hrule as [<- | [<- | [<- | [<- | [<- | []]]]]]; cbn [Apply]; try reflexivity.
    + unfold validateIsResolved. rewrite Hres. reflexivity.
    + cbn [validateSchemaSource]. rewrite Htable. apply treeEntriesTable_validateSchema.
  - intros name Halias rule Hrule. unfold DefaultValidationRules in Hrule.
    destruct Hrule as [<- | [<- | [<- | [<- | [<- | []]]]]]; cbn [Apply]; try reflexivity.
    + unfold validateIsResolved. rewrite Halias. reflexivity.
    + cbn [validateSchemaSource]. rewrite Htable. apply treeEntriesTable_validateSchema.
Qed.

End TableAndRules.

Section GroupByProperties.
Context `{EM : ExpressionMethods} `{TM : TypeMethods} `{NM : NodeMethods}.

Lemma unwrapAlias_idempotent (e : Expression) : unwrapAlias (unwrapAlias e) = unwrapAlias e.
Proof. induction e; cbn; auto. Qed.

Lemma groupBy_pass_unwrapped (Grouping Aggregate : list Expression) :
  (forall e, In e Aggregate -> ~ notGrouped Grouping e) <->
  (forall u, In u (map unwrapAlias Aggregate) -> ~ notGrouped Grouping u).
Proof.
  split.
  - intros H u Hu. apply in_map_iff in Hu. destruct Hu as (e & <- & He).
    unfold notGrouped. rewrite unwrapAlias_idempotent. apply (H e He).
  - intros H e He. specialize (H (unwrapAlias e) (in_map unwrapAlias _ _ He)).
    unfold notGrouped in *. rewrite unwrapAlias_idempotent in H. exact H.
Qed.

(** X12. Whether the group-by rule passes does not depend on the aliases
    of the output expressions: two aggregate lists that are the same once
    aliases are removed pass or fail together, for the same grouping. *)
Theorem validateGroupBy_ignores_aliases
  (ctx : Context) (Aggregate Aggregate' Grouping : list Expression) (child : Node) :
  map unwrapAlias Aggregate = map unwrapAlias Aggregate' ->
  (validateGroupBy ctx (GroupBy Aggregate Grouping child) = None <->
   validateGroupBy ctx (GroupBy Aggregate' Grouping child) = None).
Proof.
  intros Hsame. cbn [validateGroupBy].
  destruct (Z.of_nat (length Grouping) =? 0); [tauto|]. cbv zeta.
  rewrite !groupByAggregates_pass.
  rewrite (groupBy_pass_unwrapped Grouping Aggregate).
  rewrite (groupBy_pass_unwrapped Grouping Aggregate'), Hsame. tauto.
Qed.

(** X13. Grouping by more never turns a pass into a failure: if the rule
    passes with a grouping that is not empty, it passes with any grouping
    whose string forms include those of the first. *)
Theorem validateGroupBy_more_grouping
  (ctx : Context) (Aggregate Grouping Grouping' : list Expression) (child : Node) :
  Grouping <> [] ->
  (forall s, In s (map ExprString Grouping) -> In s (map ExprString Grouping')) ->
  validateGroupBy ctx (GroupBy Aggregate Grouping child) = None ->
  validateGroupBy ctx (GroupBy Aggregate Grouping' child) = None.
Proof.
  intros Hne Hincl. cbn [validateGroupBy].
  destruct Grouping as [|g Grouping]; [congruence|].
  change (Z.of_nat (length (g :: Grouping)) =? 0) with false. cbv iota zeta.
  destruct (Z.of_nat (length Grouping') =? 0); [reflexivity|].
  rewrite !groupByAggregates_pass. intros Hpass e He [Hagg Hnot].
  apply (Hpass e He). split; [exact Hagg|]. intros Hin. apply Hnot, Hincl, Hin.
Qed.

Lemma projectTuples_shift (exprs : list Expression) (k d : Z) :
  projectTuples (k + d) exprs =
  match projectTuples k exprs with
  | Some (ErrProjectTuple field columns) => Some (ErrProjectTuple (d + field) columns)
  | other => other
  end.
Proof.
  revert k. induction exprs as [|e rest IH]; intros k; cbn [projectTuples]; [reflexivity|].
  destruct (IsTuple (ExprType e)).
  - do 2 f_equal. lia.
  - replace (k + d + 1) with (k + 1 + d) by lia. apply IH.
Qed.

(** X14. Fields without a tuple type in front only move the position the
    projection rule reports: on [before ++ after], with no tuple-typed
    expression in [before], the rule gives what it gives on [after], with
    the position raised by the length of [before]. *)
Theorem validateProjectTuples_after_plain_fields
  (ctx : Context) (before after : list Expression) (child : Node) :
  (forall e, In e before -> IsTuple (ExprType e) = false) ->
  validateProjectTuples ctx (Project (before ++ after) child) =
  match validateProjectTuples ctx (Project after child) with
  | Some (ErrProjectTuple field columns) =>
      Some (ErrProjectTuple (Z.of_nat (length before) + field) columns)
  | other => other
  end.
Proof.
  intros Hplain. cbn [validateProjectTuples].
  rewrite <- projectTuples_shift. generalize 0 as k.
  induction before as [|e rest IH]; intros k; cbn [app length projectTuples].
  - f_equal. lia.
  - rewrite (Hplain e (or_introl eq_refl)).
    rewrite IH by (intros e' He'; apply Hplain; right; exact He').
    f_equal. lia.
Qed.

End GroupByProperties.

Section IsValidAgg.
Context `{EM : ExpressionMethods}.

(** X15. [isValidAgg] accepts an expression exactly when, under its
    aliases, it is an aggregation or an expression whose string form is one
    of [validAggs]; [stringContains] is membership, by equality of
    strings. *)
Theorem isValidAgg_iff (validAggs : list string) (e : Expression) :
  (isValidAgg validAggs e = true <->
   isAggregation (unwrapAlias e) = true \/ In (ExprString (unwrapAlias e)) validAggs) /\
  (forall target, stringContains validAggs target = true <-> In target validAggs).
Proof.
  split; [|intros target; apply stringContains_In].
  rewrite isValidAgg_unwrapAlias, orb_true_iff, stringContains_In. tauto.
Qed.

End IsValidAgg.

Section ScanRows.
Context `{HM : HashMethods}.

(** X16. One [Next] of the by-hash iterator when nothing fails. With no
    file iterator open and the hash at its position resolved to a tree, it
    returns the row of the tree's first file and keeps the traversal open,
    past that hash; a tree without files is passed over. With a file
    iterator open it returns the row of its next file, and at its end goes
    on with the hash at its position. *)
Theorem treeEntriesByHashIter_Next_rows (i : treeEntriesByHashIter) (repo : Repository) :
  bh_repo i = Some repo ->
  let at_pos (pos : Z) (fi : option fileIter) :=
    mkTreeEntriesByHashIter (bh_hashes i) pos (Some repo) fi in
  (forall h tree,
     bh_fi i = None -> index (bh_hashes i) (bh_pos i) = Some h ->
     TreeObject repo (NewHash h) = Ok tree ->
     match object.Files tree with
     | [] => treeEntriesByHashIter_Next i
             = treeEntriesByHashIter_Next (at_pos (bh_pos i + 1) None)
     | Ok f :: files =>
         treeEntriesByHashIter_Next i =
         Returns (Ok (fileToRow (ID repo) tree f),
                  at_pos (bh_pos i + 1) (Some (mkFileIter (ID repo) tree files)))
     | Err _ :: _ => True
     end) /\
  (forall fi,
     bh_fi i = Some fi ->
     match fi_fi fi with
     | [] => treeEntriesByHashIter_Next i = treeEntriesByHashIter_Next (at_pos (bh_pos i) None)
     | Ok f :: files =>
         treeEntriesByHashIter_Next i =
         Returns (Ok (fileToRow (fi_repoID fi) (fi_t fi) f),
                  at_pos (bh_pos i) (Some (mkFileIter (fi_repoID fi) (fi_t fi) files)))
     | Err _ :: _ => True
     end).
Proof.
  intros Hrepo at_pos. subst at_pos. cbn beta. split.
  - intros h tree Hfi Hidx Hres.
    assert (Hend : (Z.of_nat (length (bh_hashes i)) <=? bh_pos i) = false).
    { apply index_Some in Hidx. apply Z.leb_gt. lia. }
    destruct (object.Files tree) as [|[f|err] files] eqn:Hfiles; [| |exact I].
    + apply treeEntriesByHashIter_Next_continue.
      unfold treeEntriesByHashIter_Next_body, fileIter_Next. rewrite Hfi, Hend, Hidx.
      cbn [bh_repo bh_hashes bh_pos bh_fi fi_fi fi_repoID fi_t]. rewrite Hrepo, Hres, Hfiles.
      reflexivity.
    + apply treeEntriesByHashIter_Next_return.
      unfold treeEntriesByHashIter_Next_body, fileIter_Next. rewrite Hfi, Hend, Hidx.
      cbn [bh_repo bh_hashes bh_pos bh_fi fi_fi fi_repoID fi_t]. rewrite Hrepo, Hres, Hfiles.
      reflexivity.
  - intros fi Hfi. pose proof (fileIter_Next_cases fi) as Hnext.
    destruct (fi_fi fi) as [|[f|err] files]; [| |exact I].
    + apply treeEntriesByHashIter_Next_continue.
      unfold treeEntriesByHashIter_Next_body. rewrite Hfi, Hnext, Hrepo. reflexivity.
    + apply treeEntriesByHashIter_Next_return.
      unfold treeEntriesByHashIter_Next_body. rewrite Hfi, Hnext, Hrepo. reflexivity.
Qed.

Lemma filesStream_rows_of (repoID : string) (t : object.Tree) (P : Row -> Prop) :
  (forall f, In (Ok f) (object.Files t) -> P (fileToRow repoID t f)) ->
  Forall P (fst (filesStream repoID t (object.Files t))).
Proof.
  intros HP.
  assert (H : forall files done,
             object.Files t = (done ++ files)%list ->
             Forall P (fst (filesStream repoID t files))).
  { induction files as [|[f|err] files IH]; intros done Hd; cbn; constructor.
    - apply HP. rewrite Hd. apply in_or_app. right. left. reflexivity.
    - apply (IH (done ++ [Ok f])%list). rewrite <- app_assoc. exact Hd. }
  apply (H _ []). reflexivity.
Qed.

Lemma treesStream_enumerated (repoID : string) (trees : object.TreeIter) :
  Forall (rowOfEnumeratedTree repoID trees) (fst (treesStream repoID trees)).
Proof.
  induction trees as [|[tree|err] rest IH]; cbn [treesStream]; try constructor.
  apply andThen_rows.
  - apply filesStream_rows_of. intros f Hf. exists tree, f.
    split; [left; reflexivity|]. split; [exact Hf | reflexivity].
  - eapply Forall_impl; [exact IH|]. intros row (t & f & Ht & Hf & ->).
    exists t, f. split; [right; exact Ht|]. auto.
Qed.

(** X17. The full-traversal scan returns rows of trees of the repository
    only: every row of the drained iterator that [NewIterator] makes is
    the row of a file of a tree that [TreeObjects] gave. *)
Theorem scan_full_rows_are_enumerated
  (repo : Repository) (trees : object.TreeIter) (i : RowRepoIter)
  (fuel : nat) (rows : list Row) (err : error) :
  TreeObjects repo = Ok trees ->
  NewIterator (TreeEntryIter new_treeEntryIter) repo = Ok i ->
  drain fuel i = Returns (rows, err) ->
  forall row, In row rows -> rowOfEnumeratedTree (ID repo) trees row.
Proof.
  intros Htrees Hnew Hd row Hrow.
  pose proof (NewIterator_bound _ _ _ Hnew) as Hb.
  destruct (drain_ended (ID repo) fuel i Hb) as [Hs _]; [rewrite Hd; discriminate|].
  rewrite Hd in Hs. injection Hs as Hs.
  cbn in Hnew. unfold treeEntryIter_NewIterator in Hnew. rewrite Htrees in Hnew.
  injection Hnew as <-.
  pose proof (treesStream_enumerated (ID repo) trees) as Hall.
  change (treesStream (ID repo) trees)
    with (remaining (TreeEntryIter (mkTreeEntryIter (Some trees) None (ID repo)))) in Hall.
  rewrite <- Hs in Hall. cbn [fst] in Hall. rewrite Forall_forall in Hall.
  apply Hall. apply list_elem_of_In. exact Hrow.
Qed.

Lemma filesStream_clean (repoID : string) (t : object.Tree) (files : list object.File) :
  filesStream repoID t (map Ok files) = (map (fileToRow repoID t) files, EOF).
Proof.
  induction files as [|f files IH]; [reflexivity|].
  cbn [map filesStream]. rewrite IH. reflexivity.
Qed.

Lemma byHashStream_clean
  (repo : Repository) (hashes : list string) (trees : list (object.Tree * list object.File)) :
  Forall2 (fun h tf => TreeObject repo (NewHash h) = Ok (fst tf) /\
                       object.Files (fst tf) = map Ok (snd tf)) hashes trees ->
  byHashStream repo hashes = (flat_map (rowsOfFiles (ID repo)) trees, EOF).
Proof.
  induction 1 as [|h tf hashes trees [Hres Hfiles] Hrest IH]; [reflexivity|].
  cbn [byHashStream flat_map]. rewrite Hres, Hfiles, filesStream_clean, IH. reflexivity.
Qed.

(** X18. When every hash resolves and every traversal gives its files
    without an error, the by-hash scan is complete and exact: drained, it
    gives the row of every file of every tree, in the order of the hashes
    and of the files, each once, and ends with [io.EOF]. *)
Theorem scan_by_hash_complete
  (repo : Repository) (hashes : list string) (trees : list (object.Tree * list object.File))
  (fuel : nat) :
  Forall2 (fun h tf => TreeObject repo (NewHash h) = Ok (fst tf) /\
                       object.Files (fst tf) = map Ok (snd tf)) hashes trees ->
  drain fuel (byHashFor repo hashes) <> OutOfFuel ->
  drain fuel (byHashFor repo hashes) = Returns (flat_map (rowsOfFiles (ID repo)) trees, EOF).
Proof.
  intros Hclean Hend.
  destruct (drain_ended (ID repo) fuel _ (byHashFor_bound repo hashes) Hend) as [Hd _].
  rewrite Hd, byHashFor_remaining. f_equal. apply byHashStream_clean. exact Hclean.
Qed.

End ScanRows.

Section RulesTogether.
Context `{EM : ExpressionMethods} `{TM : TypeMethods}.

(** X19. The order-by rule never fails together with the group-by rule or
    the projection rule: on any node, either the order-by rule passes or
    both of the others do. *)
Theorem validateOrderBy_fails_alone (ctx : Context) (n : Node) :
  validateOrderBy ctx n = None \/
  (validateGroupBy ctx n = None /\ validateProjectTuples ctx n = None).
Proof.
  destruct n as [fields child|agg grouping child|projections child|child name|id];
    try (left; reflexivity).
  right. split; reflexivity.
Qed.

End RulesTogether.

Section Binding.
Context `{HM : HashMethods}.

(** X20. [NewIterator] of the full-traversal iterator does not look at its
    receiver: whatever state the receiver is in, it fails with the error of
    [TreeObjects] if that fails, and otherwise gives an iterator bound to
    the repository whose scan is the rows of all the trees enumerated. *)
Theorem treeEntryIter_NewIterator_any_receiver (i : treeEntryIter) (repo : Repository) :
  NewIterator (TreeEntryIter i) repo = NewIterator (TreeEntryIter new_treeEntryIter) repo /\
  match TreeObjects repo with
  | Err err => NewIterator (TreeEntryIter i) repo = Err err
  | Ok trees =>
      exists i',
        NewIterator (TreeEntryIter i) repo = Ok i' /\
        boundTo (ID repo) i' /\
        forall fuel,
          (length (fst (treesStream (ID repo) trees)) < fuel)%nat ->
          drain fuel i' = Returns (treesStream (ID repo) trees)
  end.
Proof.
  split; [reflexivity|].
  cbn [NewIterator]. unfold treeEntryIter_NewIterator.
  destruct (TreeObjects repo) as [trees|err] eqn:Htrees; [|reflexivity].
  eexists. split; [reflexivity|].
  assert (Hb : boundTo (ID repo) (TreeEntryIter (mkTreeEntryIter (Some trees) None (ID repo)))).
  { apply (NewIterator_bound (TreeEntryIter i)). cbn [NewIterator].
    unfold treeEntryIter_NewIterator. rewrite Htrees. reflexivity. }
  split; [exact Hb|]. intros fuel Hfuel.
  exact (drain_stream (ID repo) fuel
           (TreeEntryIter (mkTreeEntryIter (Some trees) None (ID repo))) Hb Hfuel).
Qed.

(** X21. The end of a by-hash scan is final: when resolving a hash never
    fails with [io.EOF] itself, a [Next] that returned [io.EOF] left the
    iterator in a state where every further [Next] returns [io.EOF], with
    the state unchanged. *)
Theorem treeEntriesByHashIter_EOF_is_final
  (i i' : treeEntriesByHashIter) (repo : Repository) :
  bh_repo i = Some repo ->
  Forall (fun h => TreeObject repo (NewHash h) <> Err EOF) (bh_hashes i) ->
  treeEntriesByHashIter_Next i = Returns (Err EOF, i') ->
  treeEntriesByHashIter_Next i' = Returns (Err EOF, i').
Proof.
  intros Hrepo Hall Hnext.
  pose proof (iterate_invariant treeEntriesByHashIter_Next_body
                (fun s => bh_hashes s = bh_hashes i /\ bh_repo s = Some repo)
                (fun r => fst r = Err EOF ->
                          bh_fi (snd r) = None /\
                          Z.of_nat (length (bh_hashes (snd r))) <= bh_pos (snd r))) as H.
  assert (Hbody : forall s,
             bh_hashes s = bh_hashes i /\ bh_repo s = Some repo ->
             match treeEntriesByHashIter_Next_body s with
             | Continue s' => bh_hashes s' = bh_hashes i /\ bh_repo s' = Some repo
             | Return r => fst r = Err EOF ->
                           bh_fi (snd r) = None /\
                           Z.of_nat (length (bh_hashes (snd r))) <= bh_pos (snd r)
             | Panic => True
             end).
  { intros s [Hh Hr]. by_hash_cases s; cbn [fst snd bh_hashes bh_repo bh_pos bh_fi];
      try exact I; try (split; assumption); try discriminate.
    - intros _. split; [exact Hfi|]. apply Z.leb_le. exact Hend.
    - intros _. exfalso. injection Hr as ->.
      apply index_Some in Hidx. destruct Hidx as [_ Hidx].
      rewrite Forall_forall in Hall. apply (Hall h); [|exact Hres].
      rewrite <- Hh. eapply list_elem_of_lookup_2. exact Hidx. }
  specialize (H Hbody (S (treeEntriesByHashIter_passes i)) i (conj eq_refl Hrepo)).
  unfold treeEntriesByHashIter_Next in Hnext. rewrite Hnext in H.
  destruct (H eq_refl) as [Hfi Hpos]. cbn [snd] in Hfi, Hpos.
  destruct i' as [hashes pos repo' fi]. cbn [bh_fi bh_hashes bh_pos] in Hfi, Hpos.
  subst fi. apply treeEntriesByHashIter_exhausted. exact Hpos.
Qed.

End Binding.

Section Selectors.
Context `{HM : HashMethods} `{TE : TableEnv}.

(** X22. The function [WithProjectAndFilters] hands over fails in one
    case only: something was extracted for tree_hash and [textValues]
    fails on it; the error is that of [textValues]. *)
Theorem treeEntriesRowRepoIter_fails_iff (sel : selectors) (err : error) :
  treeEntriesRowRepoIter sel = Err err <->
  selectorsAt sel "tree_hash" <> [] /\ textValues sel "tree_hash" = Err err.
Proof.
  unfold treeEntriesRowRepoIter.
  destruct (selectorsAt sel "tree_hash") as [|s rest]; cbn.
  - split; [discriminate | intros [Hne _]; congruence].
  - destruct (textValues sel "tree_hash") as [hashes|err'].
    + split; [discriminate | intros [_ Herr]; discriminate Herr].
    + split; [intros [= ->]; split; [discriminate | reflexivity] | intros [_ [= ->]]; reflexivity].
Qed.

End Selectors.

(* ===================================================================== *)
(** * The further properties on the small dataset                         *)
(* ===================================================================== *)

Section ScanInstances.
Existing Instance demo.hashMethods.
Existing Instance demo.tableEnv.

(** X1 on the by-hash iterator of [repoA] before its first row. *)
Lemma Next_of_bound_iterator_returns_witness :
  let i := TreeEntriesByHashIter demo.byHashA in
  boundTo "repoA" i /\
  exists r i', Next i = Returns (r, i') /\ boundTo "repoA" i'.
Proof.
  intros i.
  assert (Hb : boundTo "repoA" i).
  { split; [exists demo.repoA; split; reflexivity|].
    split; [simpl; lia|]. intros fi0 Hfi. discriminate Hfi. }
  exact (conj Hb (Next_of_bound_iterator_returns "repoA" i Hb)).
Defined.

(** X2 on [repoB], which has neither T1 nor T9. *)
Lemma treeEntriesByHashIter_Next_all_missing_witness :
  Forall (fun h => TreeObject demo.repoB (NewHash h) = Err ErrObjectNotFound) ["T1"; "T9"] /\
  treeEntriesByHashIter_Next (mkTreeEntriesByHashIter ["T1"; "T9"] 0 (Some demo.repoB) None)
  = Returns (Err EOF, mkTreeEntriesByHashIter ["T1"; "T9"] 2 (Some demo.repoB) None).
Proof.
  assert (H : Forall (fun h => TreeObject demo.repoB (NewHash h) = Err ErrObjectNotFound)
                     ["T1"; "T9"]).
  { constructor; [reflexivity|]. constructor; [reflexivity|]. constructor. }
  exact (conj H (treeEntriesByHashIter_Next_all_missing demo.repoB ["T1"; "T9"] H)).
Defined.

(** X5 on [repoB]: asking for T1, which it lacks, and T2 is asking for
    T2. *)
Lemma scan_ignores_missing_hashes_witness :
  drain 3 (byHashFor demo.repoB ["T1"; "T2"]) <> OutOfFuel /\
  drain 3 (byHashFor demo.repoB ["T2"]) = drain 3 (byHashFor demo.repoB ["T1"; "T2"]).
Proof.
  assert (H : drain 3 (byHashFor demo.repoB ["T1"; "T2"]) <> OutOfFuel).
  { intros Hd. vm_compute in Hd. discriminate Hd. }
  exact (conj H (scan_ignores_missing_hashes demo.repoB ["T1"; "T2"] 3 H)).
Defined.

(** X6 on [repoA]: the scan of T1 and T2 is the scan of T1, then that of
    T2. *)
Lemma scan_of_appended_hashes_witness :
  let rowA := [VText "repoA"; VText "T1"; VText "b1"; VText "100644"; VText "a.txt"] in
  let rowB := [VText "repoA"; VText "T1"; VText "b2"; VText "100755"; VText "lib/b.go"] in
  let rowC := [VText "repoA"; VText "T2"; VText "b3"; VText "100644"; VText "c.md"] in
  Forall (fun h => TreeObject demo.repoA (NewHash h) <> Err EOF) ["T1"] /\
  drain 3 (byHashFor demo.repoA ["T1"]) = Returns ([rowA; rowB], EOF) /\
  drain 3 (byHashFor demo.repoA ["T2"]) = Returns ([rowC], ErrOther "corrupt blob") /\
  drain 6 (byHashFor demo.repoA ["T1"; "T2"])
  = Returns ([rowA; rowB; rowC], ErrOther "corrupt blob").
Proof.
  intros rowA rowB rowC.
  assert (H : Forall (fun h => TreeObject demo.repoA (NewHash h) <> Err EOF) ["T1"]).
  { constructor; [|constructor]. intros Heof. discriminate Heof. }
  assert (H1 : drain 3 (byHashFor demo.repoA ["T1"]) = Returns ([rowA; rowB], EOF))
    by reflexivity.
  assert (H2 : drain 3 (byHashFor demo.repoA ["T2"])
               = Returns ([rowC], ErrOther "corrupt blob")) by reflexivity.
  split; [exact H|]. split; [exact H1|]. split; [exact H2|].
  exact (scan_of_appended_hashes demo.repoA ["T1"] ["T2"] 3 _ _ H H1 H2).
Defined.

(** X7 on [repoA]: the first row of the scan of T1 is the row of a file of
    T1. *)
Lemma scan_by_hash_rows_were_asked_for_witness :
  let rowA := [VText "repoA"; VText "T1"; VText "b1"; VText "100644"; VText "a.txt"] in
  let rowB := [VText "repoA"; VText "T1"; VText "b2"; VText "100755"; VText "lib/b.go"] in
  drain 3 (byHashFor demo.repoA ["T1"]) = Returns ([rowA; rowB], EOF) /\
  rowOfAskedTree demo.repoA ["T1"] rowA.
Proof.
  intros rowA rowB.
  assert (H : drain 3 (byHashFor demo.repoA ["T1"]) = Returns ([rowA; rowB], EOF))
    by reflexivity.
  split; [exact H|].
  exact (scan_by_hash_rows_were_asked_for demo.repoA ["T1"] 3 [rowA; rowB] EOF H
           rowA (or_introl eq_refl)).
Defined.

(** X8 on [repoC], whose trees are T1 and T3: asked for by hash in that
    order, they give the stream of the full traversal. *)
Lemma scan_paths_agree_witness :
  let trees := [demo.treeT1; demo.treeT3] in
  let i := TreeEntryIter (mkTreeEntryIter (Some (map Ok trees)) None "repoC") in
  TreeObjects demo.repoC = Ok (map Ok trees) /\
  Forall2 (fun h t => TreeObject demo.repoC (NewHash h) = Ok t) ["T1"; "T3"] trees /\
  NewIterator (TreeEntryIter new_treeEntryIter) demo.repoC = Ok i /\
  drain 4 i <> OutOfFuel /\
  drain 4 (byHashFor demo.repoC ["T1"; "T3"]) = drain 4 i.
Proof.
  intros trees i.
  assert (H1 : TreeObjects demo.repoC = Ok (map Ok trees)) by reflexivity.
  assert (H2 : Forall2 (fun h t => TreeObject demo.repoC (NewHash h) = Ok t)
                       ["T1"; "T3"] trees).
  { constructor; [reflexivity|]. constructor; [reflexivity|]. constructor. }
  assert (H3 : NewIterator (TreeEntryIter new_treeEntryIter) demo.repoC = Ok i)
    by reflexivity.
  assert (H4 : drain 4 i <> OutOfFuel).
  { intros Hd. vm_compute in Hd. discriminate Hd. }
  split; [exact H1|]. split; [exact H2|]. split; [exact H3|]. split; [exact H4|].
  exact (scan_paths_agree demo.repoC ["T1"; "T3"] trees 4 i H1 H2 H3 H4).
Defined.

(** X9 on the first row of the scan of T1 in [repoA]. *)
Lemma Next_row_fits_schema_witness :
  let i := TreeEntriesByHashIter demo.byHashA in
  let row := [VText "repoA"; VText "T1"; VText "b1"; VText "100644"; VText "a.txt"] in
  let fi := mkFileIter "repoA" demo.treeT1 [Ok demo.fileB] in
  let i' := TreeEntriesByHashIter
              (mkTreeEntriesByHashIter ["T1"; "T2"] 1 (Some demo.repoA) (Some fi)) in
  boundTo "repoA" i /\
  Next i = Returns (Ok row, i') /\
  rowFits row TreeEntriesSchema.
Proof.
  intros i row fi i'.
  assert (Hb : boundTo "repoA" i).
  { split; [exists demo.repoA; split; reflexivity|].
    split; [simpl; lia|]. intros fi0 Hfi. discriminate Hfi. }
  assert (Hnext : Next i = Returns (Ok row, i')) by reflexivity.
  split; [exact Hb|]. split; [exact Hnext|].
  exact (Next_row_fits_schema "repoA" i i' row Hb Hnext).
Defined.

(** X10 on a.txt, a regular file: mode 0100644. *)
Lemma fileToRow_mode_column_witness :
  0 <= object.Mode demo.fileA < 2 ^ 32 /\
  exists s,
    fileToRow "repoA" demo.treeT1 demo.fileA !! 3%nat = Some (VText s) /\
    s <> EmptyString /\
    allChars isOctalDigit s /\
    digitsValue 8 s = object.Mode demo.fileA.
Proof.
  assert (H : 0 <= object.Mode demo.fileA < 2 ^ 32).
  { cbn [object.Mode demo.fileA]. lia. }
  exact (conj H (fileToRow_mode_column "repoA" demo.treeT1 demo.fileA H)).
Defined.

(** X16 on the by-hash iterator of [repoA] before its first row: T1
    resolves, and the row of its first file comes back. *)
Lemma treeEntriesByHashIter_Next_rows_witness :
  let row := [VText "repoA"; VText "T1"; VText "b1"; VText "100644"; VText "a.txt"] in
  let fi := mkFileIter "repoA" demo.treeT1 [Ok demo.fileB] in
  bh_repo demo.byHashA = Some demo.repoA /\
  treeEntriesByHashIter_Next demo.byHashA =
  Returns (Ok row, mkTreeEntriesByHashIter ["T1"; "T2"] 1 (Some demo.repoA) (Some fi)).
Proof.
  intros row fi.
  split; [reflexivity|].
  exact (proj1 (treeEntriesByHashIter_Next_rows demo.byHashA demo.repoA eq_refl)
           "T1" demo.treeT1 eq_refl eq_refl eq_refl).
Defined.

(** X17 on [repoB]: the one row of its full traversal is the row of a
    file of T2. *)
Lemma scan_full_rows_are_enumerated_witness :
  let row := [VText "repoB"; VText "T2"; VText "b3"; VText "100644"; VText "c.md"] in
  let i := TreeEntryIter (mkTreeEntryIter (Some [Ok demo.treeT2]) None "repoB") in
  TreeObjects demo.repoB = Ok [Ok demo.treeT2] /\
  NewIterator (TreeEntryIter new_treeEntryIter) demo.repoB = Ok i /\
  drain 2 i = Returns ([row], ErrOther "corrupt blob") /\
  rowOfEnumeratedTree "repoB" [Ok demo.treeT2] row.
Proof.
  intros row i.
  assert (H1 : TreeObjects demo.repoB = Ok [Ok demo.treeT2]) by reflexivity.
  assert (H2 : NewIterator (TreeEntryIter new_treeEntryIter) demo.repoB = Ok i)
    by reflexivity.
  assert (H3 : drain 2 i = Returns ([row], ErrOther "corrupt blob")) by reflexivity.
  split; [exact H1|]. split; [exact H2|]. split; [exact H3|].
  exact (scan_full_rows_are_enumerated demo.repoB [Ok demo.treeT2] i 2 [row]
           (ErrOther "corrupt blob") H1 H2 H3 row (or_introl eq_refl)).
Defined.

(** X18 on [repoC]: T1 and T3 resolve and their traversals do not fail;
    the scan gives their three files and ends. *)
Lemma scan_by_hash_complete_witness :
  let trees := [(demo.treeT1, [demo.fileA; demo.fileB]); (demo.treeT3, [demo.fileC])] in
  Forall2 (fun h tf => TreeObject demo.repoC (NewHash h) = Ok (fst tf) /\
                       object.Files (fst tf) = map Ok (snd tf)) ["T1"; "T3"] trees /\
  drain 4 (byHashFor demo.repoC ["T1"; "T3"]) <> OutOfFuel /\
  drain 4 (byHashFor demo.repoC ["T1"; "T3"])
  = Returns ([ [VText "repoC"; VText "T1"; VText "b1"; VText "100644"; VText "a.txt"];
               [VText "repoC"; VText "T1"; VText "b2"; VText "100755"; VText "lib/b.go"];
               [VText "repoC"; VText "T3"; VText "b3"; VText "100644"; VText "c.md"] ],
             EOF).
Proof.
  intros trees.
  assert (H1 : Forall2 (fun h tf => TreeObject demo.repoC (NewHash h) = Ok (fst tf) /\
                                    object.Files (fst tf) = map Ok (snd tf))
                       ["T1"; "T3"] trees).
  { constructor; [split; reflexivity|]. constructor; [split; reflexivity|]. constructor. }
  assert (H2 : drain 4 (byHashFor demo.repoC ["T1"; "T3"]) <> OutOfFuel).
  { intros Hd. vm_compute in Hd. discriminate Hd. }
  split; [exact H1|]. split; [exact H2|].
  exact (scan_by_hash_complete demo.repoC ["T1"; "T3"] trees 4 H1 H2).
Defined.

(** X21 on [repoB] asked for T1, which it lacks: the scan is at its end
    at once, and stays there. *)
Lemma treeEntriesByHashIter_EOF_is_final_witness :
  let i := mkTreeEntriesByHashIter ["T1"] 0 (Some demo.repoB) None in
  let i' := mkTreeEntriesByHashIter ["T1"] 1 (Some demo.repoB) None in
  bh_repo i = Some demo.repoB /\
  Forall (fun h => TreeObject demo.repoB (NewHash h) <> Err EOF) (bh_hashes i) /\
  treeEntriesByHashIter_Next i = Returns (Err EOF, i') /\
  treeEntriesByHashIter_Next i' = Returns (Err EOF, i').
Proof.
  intros i i'.
  assert (H1 : Forall (fun h => TreeObject demo.repoB (NewHash h) <> Err EOF) (bh_hashes i)).
  { constructor; [|constructor]. intros Heof. discriminate Heof. }
  assert (H2 : treeEntriesByHashIter_Next i = Returns (Err EOF, i')) by reflexivity.
  split; [reflexivity|]. split; [exact H1|]. split; [exact H2|].
  exact (treeEntriesByHashIter_EOF_is_final i i' demo.repoB eq_refl H1 H2).
Defined.

(** Asked for twice, a tree is read twice. *)
Example scan_by_hash_repeated_hash :
  drain 3 (byHashFor demo.repoC ["T3"; "T3"])
  = Returns ([ [VText "repoC"; VText "T3"; VText "b3"; VText "100644"; VText "c.md"];
               [VText "repoC"; VText "T3"; VText "b3"; VText "100644"; VText "c.md"] ],
             EOF).
Proof. reflexivity. Qed.

End ScanInstances.

Section TableInstances.
Existing Instance demo.expressionMethods.
Existing Instance demo.typeMethods.
Existing Instance demo.tableNodeMethods.
Existing Instance demo.hashMethods.
Existing Instance demo.tableEnv.

(** X11 on a plan whose node ["tree_entries"] is the table. *)
Lemma treeEntriesTable_passes_default_rules_witness :
  let n := OtherNode "tree_entries" in
  isTreeEntriesTable n /\
  (forall rule, In rule DefaultValidationRules -> Apply rule demo.ctx n = None) /\
  (forall name,
     Resolved (TableAlias n name) = true ->
     forall rule, In rule DefaultValidationRules ->
                  Apply rule demo.ctx (TableAlias n name) = None).
Proof.
  intros n.
  assert (H : isTreeEntriesTable n).
  { split; [exists "tree_entries"; reflexivity|]. split; reflexivity. }
  exact (conj H (treeEntriesTable_passes_default_rules demo.ctx n H)).
Defined.

End TableInstances.

Section RuleInstances.
Existing Instance demo.expressionMethods.
Existing Instance demo.typeMethods.
Existing Instance demo.nodeMethods.

(** X12 on [SELECT a, COUNT(b) AS n] and [SELECT a AS x, COUNT(b)],
    grouped by a. *)
Lemma validateGroupBy_ignores_aliases_witness :
  let count := AggregationFn "COUNT" (GetField 1 "b") in
  let Aggregate := [GetField 0 "a"; Alias count "n"] in
  let Aggregate' := [Alias (GetField 0 "a") "x"; count] in
  let Grouping := [GetField 0 "a"] in
  map unwrapAlias Aggregate = map unwrapAlias Aggregate' /\
  (validateGroupBy demo.ctx (GroupBy Aggregate Grouping (OtherNode "commits")) = None <->
   validateGroupBy demo.ctx (GroupBy Aggregate' Grouping (OtherNode "commits")) = None).
Proof.
  intros count Aggregate Aggregate' Grouping.
  split; [reflexivity|].
  exact (validateGroupBy_ignores_aliases demo.ctx Aggregate Aggregate' Grouping
           (OtherNode "commits") eq_refl).
Defined.

(** X13 on [SELECT a, COUNT(b)]: grouped by a it passes, so it passes
    grouped by a and b. *)
Lemma validateGroupBy_more_grouping_witness :
  let Aggregate := [GetField 0 "a"; AggregationFn "COUNT" (GetField 1 "b")] in
  let Grouping := [GetField 0 "a"] in
  let Grouping' := [GetField 0 "a"; GetField 1 "b"] in
  Grouping <> [] /\
  (forall s, In s (map ExprString Grouping) -> In s (map ExprString Grouping')) /\
  validateGroupBy demo.ctx (GroupBy Aggregate Grouping (OtherNode "commits")) = None /\
  validateGroupBy demo.ctx (GroupBy Aggregate Grouping' (OtherNode "commits")) = None.
Proof.
  intros Aggregate Grouping Grouping'.
  assert (H1 : Grouping <> []) by (intros Hnil; discriminate Hnil).
  assert (H2 : forall s, In s (map ExprString Grouping) -> In s (map ExprString Grouping')).
  { intros s [<- | []]. left. reflexivity. }
  assert (H3 : validateGroupBy demo.ctx (GroupBy Aggregate Grouping (OtherNode "commits"))
               = None) by reflexivity.
  split; [exact H1|]. split; [exact H2|]. split; [exact H3|].
  exact (validateGroupBy_more_grouping demo.ctx Aggregate Grouping Grouping'
           (OtherNode "commits") H1 H2 H3).
Defined.

(** X14 on [SELECT a, (b, c)]: the tuple is reported at position two. *)
Lemma validateProjectTuples_after_plain_fields_witness :
  let before := [GetField 0 "a"] in
  let after := [TupleExpr [GetField 1 "b"; GetField 2 "c"]] in
  (forall e, In e before -> IsTuple (ExprType e) = false) /\
  validateProjectTuples demo.ctx (Project (before ++ after) (OtherNode "commits"))
  = Some (ErrProjectTuple 2 2).
Proof.
  intros before after.
  assert (H : forall e, In e before -> IsTuple (ExprType e) = false).
  { intros e [<- | []]. reflexivity. }
  exact (conj H (validateProjectTuples_after_plain_fields demo.ctx before after
                   (OtherNode "commits") H)).
Defined.

End RuleInstances.
